(** * guacamole-server: guacenc instruction handling, RDP display sizing and
      the terminal typescript buffer

  A shallow embedding of

  - [src/guacenc/instruction-blob.c]   (module [Guacenc]),
  - [src/guacenc/encode.h]             (module [Replay], a declaration),
  - [src/protocols/rdp/rdp_disp.c]     (module [RdpDisp]),
  - [src/terminal/typescript.c]        (module [Typescript]),

  and the properties of these functions.  C [int] values are integers of
  [Z] with the 32-bit wrap-around written out, C strings are byte strings
  read up to their first NUL byte, and a store outside an array or a
  division that traps (by zero, or of [INT_MIN] by -1) has no result. *)

From Stdlib Require Import ZArith Lia Ascii DecimalString.
From stdpp Require Import base option list gmap strings.

Local Open Scope Z_scope.

(** ** C integers *)

Module CInt.

Definition INT_MAX : Z := 2147483647.
Definition INT_MIN : Z := -2147483648.
Definition LONG_MAX : Z := 9223372036854775807.
Definition LONG_MIN : Z := -9223372036854775808.

(** The value of a [w]-bit two's complement integer holding [z]. *)
Definition wrap (w : Z) (z : Z) : Z :=
  (z + 2 ^ (w - 1)) mod 2 ^ w - 2 ^ (w - 1).

(** Conversion to [int] and to the 64-bit types ([long],
    [guac_timestamp]). *)
Definition to_int (z : Z) : Z := wrap 32 z.
Definition to_int64 (z : Z) : Z := wrap 64 z.

Definition in_int (z : Z) : Prop := INT_MIN <= z <= INT_MAX.

(** [a * b], [a - b], [a + b] on [int]. *)
Definition mul (a b : Z) : Z := to_int (a * b).
Definition sub (a b : Z) : Z := to_int (a - b).
Definition add (a b : Z) : Z := to_int (a + b).

(** [a / b] on [int]: truncation towards zero ([÷] of [Z]); no result for
    a zero divisor, nor for [INT_MIN / -1], whose quotient is no [int]
    (the division traps). *)
Definition div (a b : Z) : option Z :=
  if decide (b = 0 ∨ (a = INT_MIN ∧ b = -1)) then None
  else Some (to_int (a ÷ b)).

End CInt.

(** ** C strings

  An argument handed to a handler is a [const char*]: the bytes of the
  parsed element, followed by a terminating NUL.  The C library reads it up
  to its first NUL byte, one of the element or else the terminator. *)

Module CString.

Definition NUL : ascii := Ascii.zero.

(** The bytes [strlen], [atoi] and [%s] see behind a pointer to [s]. *)
Fixpoint c_str (s : string) : string :=
  match s with
  | EmptyString => EmptyString
  | String c s' => if decide (c = NUL) then EmptyString else String c (c_str s')
  end.

(** [strlen(s)]: the number of bytes before the first NUL. *)
Fixpoint strlen (s : string) : Z :=
  match s with
  | EmptyString => 0
  | String c s' => if decide (c = NUL) then 0 else 1 + strlen s'
  end.

(** [isspace] in the C locale. *)
Definition isspace (c : ascii) : bool :=
  let n := nat_of_ascii c in
  bool_decide (n = 32 ∨ 9 ≤ n ≤ 13)%nat.

Definition digit_of (c : ascii) : option Z :=
  let n := Z.of_nat (nat_of_ascii c) in
  if decide (48 ≤ n ≤ 57) then Some (n - 48) else None.

(** The decimal digits at the start of [s], most significant first,
    accumulated onto [acc]. *)
Fixpoint digits (acc : Z) (s : string) : Z :=
  match s with
  | EmptyString => acc
  | String c s' =>
      match digit_of c with
      | Some d => digits (10 * acc + d) s'
      | None => acc
      end
  end.

Fixpoint skip_space (s : string) : string :=
  match s with
  | EmptyString => EmptyString
  | String c s' => if isspace c then skip_space s' else s
  end.

(** [strtol(s, NULL, 10)]: white space, an optional sign, decimal digits;
    a value that does not fit a [long] is clamped. *)
Definition strtol (s : string) : Z :=
  let v :=
    match skip_space s with
    | String "-"%char s' => - digits 0 s'
    | String "+"%char s' => digits 0 s'
    | s' => digits 0 s'
    end in
  Z.max CInt.LONG_MIN (Z.min CInt.LONG_MAX v).

(** [atoi(s)], which is [(int) strtol(s, NULL, 10)]. *)
Definition atoi (s : string) : Z := CInt.to_int (strtol s).

End CString.

(** ** guacenc: instruction handlers ([src/guacenc/instruction-blob.c]) *)

Module Guacenc.

Import CString.

(** Log levels of [guacamole/client.h]. *)
Inductive guac_client_log_level : Set :=
  | GUAC_LOG_ERROR
  | GUAC_LOG_WARNING
  | GUAC_LOG_INFO
  | GUAC_LOG_DEBUG.

(** The messages the handlers pass to [guacenc_log], one constructor per
    format string, with the values of its conversions. *)
Inductive log_message : Set :=
  | LOG_blob_incomplete
      (* the message that the blob instruction is incomplete, line 35 *)
  | LOG_blob (stream chars : Z)
      (* blob: stream=%i data=[%i chars], lines 44-45 *).

Definition log_entry : Set := guac_client_log_level * log_message.

(** A handler is a C function [int f(int argc, const char** argv)].  It can
    log, it can read [argv], and whatever it does to the state of the
    encoder it does to a value of type [W]; reading [argv] past its end has
    no defined result. *)
Inductive outcome (W A : Type) : Type :=
  | Done (a : A) (w : W) (log : list log_entry)
  | Undefined.
Arguments Done {W A} a w log.
Arguments Undefined {W A}.

Definition handler (W A : Type) : Type := W → outcome W A.

Definition handler_ret {W A} (a : A) : handler W A := λ w, Done a w [].

Definition handler_bind {W A B} (f : A → handler W B) (m : handler W A)
  : handler W B :=
  λ w, match m w with
       | Done a w' l =>
           match f a w' with
           | Done b w'' l' => Done b w'' (l ++ l')
           | Undefined => Undefined
           end
       | Undefined => Undefined
       end.

#[global] Instance handler_mret {W} : MRet (handler W) := @handler_ret W.
#[global] Instance handler_mbind {W} : MBind (handler W) := @handler_bind W.

(** [guacenc_log(level, format, ...)] *)
Definition guacenc_log {W} (level : guac_client_log_level) (m : log_message)
  : handler W unit :=
  λ w, Done () w [(level, m)].

(** [argv[i]] *)
Definition argv_at {W} (argv : list string) (i : nat) : handler W string :=
  λ w, match argv !! i with
       | Some s => Done s w []
       | None => Undefined
       end.

(** The return value and the log of an outcome. *)
Definition return_value {W A} (o : outcome W A) : option A :=
  match o with Done a _ _ => Some a | Undefined => None end.

Definition logged {W A} (o : outcome W A) : list log_entry :=
  match o with Done _ _ l => l | Undefined => [] end.

(** [guacenc_handle_blob], instruction-blob.c lines 31-48. *)
Definition guacenc_handle_blob {W} (argc : Z) (argv : list string)
  : handler W Z :=
  (* Verify argument count *)
  if decide (argc < 2) then
    guacenc_log GUAC_LOG_DEBUG LOG_blob_incomplete;;
    mret 1
  else
    (* Parse arguments *)
    a0 ← argv_at argv 0;
    let index := atoi a0 in
    data ← argv_at argv 1;
    (* STUB *)
    guacenc_log GUAC_LOG_DEBUG (LOG_blob index (strlen data));;
    mret 0.

End Guacenc.

(** ** The replay around the handlers

    [encode.c], the instruction parser, the stream table, the frame clock and
    the video sink are not among the sources; this module follows the
    design document for them. *)

Module Replay.

Import CString Guacenc.

(** Modelled from the spec: the error taxonomy of section 7 (the sources
    hold no such type). *)
Inductive error_kind : Set :=
  | FramingError
  | OrderingError
  | ReferenceError
  | SemanticError
  | EncoderInitError
  | EncoderWriteError.

(** Modelled from the spec: an Instruction of section 3, an opcode and its
    ordered byte-string arguments, each of explicit length. *)
Record instruction : Set := { opcode : string; args : list string }.

(** Modelled from the spec: a Stream of section 3, the metadata given when it
    was opened and the bytes accumulated since. *)
Record stream : Set := { metadata : string; accumulated : string }.

(** Modelled from the spec: [open(index, metadata)] of the Stream Buffer
    Table of section 4.3 (missing: the stream handling of guacenc), which
    records the metadata with an empty buffer. *)
Definition stream_open (index : Z) (meta : string) (t : gmap Z stream)
  : gmap Z stream :=
  <[index := {| metadata := meta; accumulated := "" |}]> t.

(** Modelled from the spec: [append(index, bytes)] of the Stream Buffer
    Table (section 4.3); on an index that is not open it is a reference
    error (sections 3 and 7). *)
Definition stream_append (index : Z) (bytes : string) (t : gmap Z stream)
  : error_kind + gmap Z stream :=
  match t !! index with
  | Some s =>
      inr (<[index := {| metadata := metadata s;
                         accumulated := accumulated s +:+ bytes |}]> t)
  | None => inl ReferenceError
  end.

(** Modelled from the spec: [close(index)] of the Stream Buffer Table
    (section 4.3), which hands out the stream and releases the index; on an
    index that is not open it is a reference error (sections 3 and 7). *)
Definition stream_close (index : Z) (t : gmap Z stream)
  : error_kind + (stream * gmap Z stream) :=
  match t !! index with
  | Some s => inr (s, delete index t)
  | None => inl ReferenceError
  end.

(** Modelled from the spec: the Frame Clock state of section 3 (missing: the
    sync handling of guacenc): the last observed protocol timestamp and the
    last emitted presentation instant, both absent before the first
    synchronization. *)
Record frame_clock : Set := {
  last_timestamp : option Z;
  last_emitted : option Z
}.

(** Modelled from the spec: the Frame Clock before the first
    synchronization instruction. *)
Definition frame_clock_init : frame_clock :=
  {| last_timestamp := None; last_emitted := None |}.

(** Modelled from the spec: "a received timestamp lower than the last is an
    ordering violation" (section 3). *)
Definition ordering_violation (T : Z) (fc : frame_clock) : bool :=
  match last_timestamp fc with
  | Some L => bool_decide (T < L)
  | None => false
  end.

(** Modelled from the spec: the Frame Clock contract of section 4.5 with
    frame interval [I].  A timestamp lower than the previous one is an
    ordering error; otherwise the first synchronization emits the first
    frame, and a later one emits one frame per whole interval between the
    last emitted instant and [T] (none when [T] advanced by less than [I]). *)
Definition frame_clock_sync (I T : Z) (fc : frame_clock)
  : error_kind + (nat * frame_clock) :=
  if ordering_violation T fc then inl OrderingError
  else
    match last_emitted fc with
    | None =>
        inr (1%nat, {| last_timestamp := Some T; last_emitted := Some T |})
    | Some E =>
        let k := (T - E) / I in
        inr (Z.to_nat k,
             {| last_timestamp := Some T; last_emitted := Some (E + k * I) |})
    end.

(** Modelled from the spec: what a run of the Frame Clock over a sequence
    of synchronization timestamps leaves: how many of them were processed,
    how many frames were due, the clock, and the fatal error that halted
    it, if any (sections 4.5 and 7). *)
Record clock_run : Set := {
  processed : nat;
  frames : nat;
  clock : frame_clock;
  halted : option error_kind
}.

(** Modelled from the spec: a fatal error halts the run where it is
    (section 8, property 6). *)
Definition halt_with (e : error_kind) (r : clock_run) : clock_run :=
  {| processed := processed r; frames := frames r;
     clock := clock r; halted := Some e |}.

(** Modelled from the spec: synchronization instructions are handled one at
    a time, and a fatal error halts further processing (sections 4.4, 5). *)
Fixpoint frame_clock_run (I : Z) (ts : list Z) (r : clock_run) : clock_run :=
  match ts with
  | [] => r
  | T :: ts' =>
      match frame_clock_sync I T (clock r) with
      | inl e => halt_with e r
      | inr (k, fc) =>
          frame_clock_run I ts'
            {| processed := S (processed r); frames := (frames r + k)%nat;
               clock := fc; halted := None |}
      end
  end.

(** Modelled from the spec: the start of a replay, nothing processed. *)
Definition clock_run_init : clock_run :=
  {| processed := 0; frames := 0; clock := frame_clock_init; halted := None |}.

(** Modelled from the spec: a timestamp of the sequence is "smaller than a
    previously observed one" (section 8, property 6). *)
Definition descends (ts : list Z) : Prop :=
  ∃ i j ti tj,
    (i < j)%nat ∧ ts !! i = Some ti ∧ ts !! j = Some tj ∧ tj < ti.

(** Modelled from the spec: the timestamps are "monotonically
    non-decreasing" (section 3). *)
Definition non_decreasing (ts : list Z) : Prop :=
  ∀ i j ti tj,
    (i < j)%nat → ts !! i = Some ti → ts !! j = Some tj → ti ≤ tj.

(** *** The dispatcher and [guacenc_encode] *)

Section Encode.

(** The collaborators of the core (sections 1, 2 and 6): the Display Model
    with its initial value, the Video Encoder Sink, the parsed dump behind a
    path, and the handlers of the opcodes other than "blob", "sync" and
    "disconnect". *)
Context {display encoder : Type}.

(** Modelled from the spec: what the Dispatcher owns during one replay
    (sections 3 and 4.4). *)
Record replay_state : Type := {
  model : display;
  streams : gmap Z stream;
  fclock : frame_clock;
  sink : encoder
}.

(** Modelled from the spec: how the instruction sequence of a dump ends
    (section 4.1): cleanly between two instructions, or in a framing error. *)
Inductive parse_end : Set :=
  | CleanEndOfStream
  | IncompleteInstruction
  | MalformedInstruction.

Variable frame_interval : Z.
Variable display_init : display.
Variable encoder_init : string → string → Z → Z → Z → option encoder.
Variable encoder_write : encoder → display → option encoder.
Variable parse_dump : string → list instruction * parse_end.
Variable handlers :
  string → option (Z → list string → handler replay_state Z).

(** Modelled from the spec: the states of the Dispatcher (section 4.4). *)
Inductive dispatcher_state : Type :=
  | Replaying (st : replay_state)
  | Finished
  | Failed (e : error_kind).

(** Modelled from the spec: the fixed opcode table of section 4.4, with the
    "blob" handler of instruction-blob.c in it and the handlers given for
    the other opcodes. *)
Definition handler_of (op : string)
  : option (Z → list string → handler replay_state Z) :=
  if decide (op = "blob") then Some guacenc_handle_blob else handlers op.

(** Modelled from the spec: the Video Encoder Sink is handed the composited
    canvas once per frame due; a write that fails is fatal (section 4.6). *)
Fixpoint write_frames (k : nat) (enc : encoder) (d : display)
  : option encoder :=
  match k with
  | O => Some enc
  | S k' =>
      match encoder_write enc d with
      | Some enc' => write_frames k' enc' d
      | None => None
      end
  end.

(** Modelled from the spec: one step of the Dispatcher (section 4.4).  The
    disconnect opcode ends the replay successfully; the synchronization
    opcode drives the Frame Clock and the sink; an opcode absent from the
    table is skipped; a handler that returns non-zero is a fatal error. *)
Definition dispatch (i : instruction) (st : replay_state) : dispatcher_state :=
  if decide (opcode i = "disconnect") then Finished
  else if decide (opcode i = "sync") then
    match args i with
    | [] => Failed SemanticError
    | a :: _ =>
        match frame_clock_sync frame_interval (strtol a) (fclock st) with
        | inl e => Failed e
        | inr (k, fc) =>
            match write_frames k (sink st) (model st) with
            | Some enc =>
                Replaying {| model := model st; streams := streams st;
                             fclock := fc; sink := enc |}
            | None => Failed EncoderWriteError
            end
        end
    end
  else
    match handler_of (opcode i) with
    | None => Replaying st
    | Some h =>
        match h (Z.of_nat (length (args i))) (args i) st with
        | Done 0 st' _ => Replaying st'
        | Done _ _ _ => Failed SemanticError
        | Undefined => Failed SemanticError
        end
    end.

(** Modelled from the spec: a synchronization instruction, "the opcode
    carrying an absolute protocol timestamp" (glossary), here as its first
    argument, in decimal. *)
Definition is_sync (i : instruction) : Prop :=
  opcode i = "sync" ∧ args i ≠ [].

(** Modelled from the spec: the timestamp a synchronization instruction
    carries. *)
Definition sync_timestamp (i : instruction) : Z :=
  match args i with
  | a :: _ => strtol a
  | [] => 0
  end.

(** Modelled from the spec: the replay advances one instruction at a time
    and stops in the first terminal state; the end of the instructions is
    the end of the stream, clean or not (sections 4.1, 4.4). *)
Fixpoint replay (instrs : list instruction) (ending : parse_end)
    (st : replay_state) : dispatcher_state :=
  match instrs with
  | [] =>
      match ending with
      | CleanEndOfStream => Finished
      | IncompleteInstruction | MalformedInstruction => Failed FramingError
      end
  | i :: instrs' =>
      match dispatch i st with
      | Replaying st' => replay instrs' ending st'
      | terminal => terminal
      end
  end.

(** Modelled from the spec: where the Dispatcher is after the instructions
    [instrs], started in [st]: still replaying, in the state they left, or
    in the terminal state that one of them led to (section 4.4). *)
Fixpoint replay_prefix (instrs : list instruction) (st : replay_state)
  : dispatcher_state :=
  match instrs with
  | [] => Replaying st
  | i :: instrs' =>
      match dispatch i st with
      | Replaying st' => replay_prefix instrs' st'
      | terminal => terminal
      end
  end.

(** Modelled from the spec: the state in which a replay starts (sections 3
    and 4.4): the initial display, no stream open, the Frame Clock before
    its first synchronization, and the encoder as it was initialized. *)
Definition replay_start (enc : encoder) : replay_state :=
  {| model := display_init; streams := ∅;
     fclock := frame_clock_init; sink := enc |}.

(** Modelled from the spec: the whole encode operation (sections 4.6, 6),
    missing: encode.c.  The encoder is initialized before any instruction is
    handled, and its failure aborts the replay. *)
Definition encode_result (path out_path codec : string)
    (width height bitrate : Z) : dispatcher_state :=
  match encoder_init out_path codec width height bitrate with
  | None => Failed EncoderInitError
  | Some enc =>
      let '(instrs, ending) := parse_dump path in
      replay instrs ending (replay_start enc)
  end.

(** Modelled from the spec: [guacenc_encode] as encode.h declares and
    documents it, "zero on success, non-zero if an error prevented
    successful encoding of the video". *)
Definition guacenc_encode (path out_path codec : string)
    (width height bitrate : Z) : Z :=
  match encode_result path out_path codec width height bitrate with
  | Finished => 0
  | Replaying _ | Failed _ => 1
  end.

End Encode.

End Replay.

(** ** RDP display update ([src/protocols/rdp/rdp_disp.c]) *)

Module RdpDisp.

(** The monitor layout handed to [SendMonitorLayout]; [Flags], [Width] and
    [Height] are unsigned 32-bit fields. *)
Record DISPLAY_CONTROL_MONITOR_LAYOUT : Set := {
  Flags : Z;
  Left : Z;
  Top : Z;
  Width : Z;
  Height : Z;
  PhysicalWidth : Z;
  PhysicalHeight : Z;
  Orientation : Z;
  DesktopScaleFactor : Z;
  DeviceScaleFactor : Z
}.

(** The layout of one primary monitor of a width and a height, as
    [guac_rdp_disp_update_size] builds it (lines 144-155). *)
Definition primary_monitor (width height : Z)
  : DISPLAY_CONTROL_MONITOR_LAYOUT :=
  {| Flags := 1; Left := 0; Top := 0;
     Width := width mod 2 ^ 32; Height := height mod 2 ^ 32;
     PhysicalWidth := 0; PhysicalHeight := 0; Orientation := 0;
     DesktopScaleFactor := 0; DeviceScaleFactor := 0 |}.

Section Disp.

(** rdp_disp.h is not among the sources: its three constants are
    parameters, and so are the display channel and the RDP context with the
    current size of the remote display. *)
Variables GUAC_RDP_DISP_MIN_SIZE GUAC_RDP_DISP_MAX_SIZE : Z.
Variable GUAC_RDP_DISP_UPDATE_INTERVAL : Z.
Context {DispClientContext rdpContext : Type}.
Variables guac_rdp_get_width guac_rdp_get_height : rdpContext → Z.

(** [guac_rdp_disp]; a [disp] of [None] is the NULL of a channel that is
    not connected. *)
Record guac_rdp_disp : Type := {
  disp : option DispClientContext;
  last_request : Z;
  requested_width : Z;
  requested_height : Z
}.

(** [guac_rdp_disp_alloc], lines 30-44. *)
Definition guac_rdp_disp_alloc : guac_rdp_disp :=
  {| disp := None; last_request := 0;
     requested_width := 0; requested_height := 0 |}.

(** [guac_rdp_disp_connect], lines 65-67. *)
Definition guac_rdp_disp_connect (guac_disp : guac_rdp_disp)
    (d : DispClientContext) : guac_rdp_disp :=
  {| disp := Some d; last_request := last_request guac_disp;
     requested_width := requested_width guac_disp;
     requested_height := requested_height guac_disp |}.

(** [guac_rdp_disp_fit], lines 80-109: the new values of [*a] and [*b], or
    nothing when the division traps. *)
Definition guac_rdp_disp_fit (a_value b_value : Z) : option (Z * Z) :=
  (* Ensure first dimension is within allowed range *)
  if decide (a_value < GUAC_RDP_DISP_MIN_SIZE) then
    (* Adjust other dimension to maintain aspect ratio *)
    adjusted_b ← CInt.div (CInt.mul b_value GUAC_RDP_DISP_MIN_SIZE) a_value;
    let adjusted_b :=
      if decide (adjusted_b > GUAC_RDP_DISP_MAX_SIZE)
      then GUAC_RDP_DISP_MAX_SIZE else adjusted_b in
    Some (GUAC_RDP_DISP_MIN_SIZE, adjusted_b)
  else if decide (a_value > GUAC_RDP_DISP_MAX_SIZE) then
    (* Adjust other dimension to maintain aspect ratio *)
    adjusted_b ← CInt.div (CInt.mul b_value GUAC_RDP_DISP_MAX_SIZE) a_value;
    let adjusted_b :=
      if decide (adjusted_b < GUAC_RDP_DISP_MIN_SIZE)
      then GUAC_RDP_DISP_MIN_SIZE else adjusted_b in
    Some (GUAC_RDP_DISP_MAX_SIZE, adjusted_b)
  else Some (a_value, b_value).

(** [guac_rdp_disp_update_size], lines 133-176, at the time [now] that
    [guac_timestamp_current] returns: the module afterwards and the layouts
    sent through the channel (the debug message of a resize is left out). *)
Definition guac_rdp_disp_update_size (d : guac_rdp_disp)
    (context : rdpContext) (now : Z)
  : guac_rdp_disp * list DISPLAY_CONTROL_MONITOR_LAYOUT :=
  (* Send display update notification if display channel is connected *)
  match disp d with
  | None => (d, [])
  | Some _ =>
      let width := requested_width d in
      let height := requested_height d in
      let monitors :=
        {| Flags := 1; Left := 0; Top := 0;
           Width := width mod 2 ^ 32; Height := height mod 2 ^ 32;
           PhysicalWidth := 0; PhysicalHeight := 0; Orientation := 0;
           DesktopScaleFactor := 0; DeviceScaleFactor := 0 |} in
      (* Limit display update frequency *)
      if decide (last_request d ≠ 0
                 ∧ CInt.to_int64 (now - last_request d)
                   ≤ GUAC_RDP_DISP_UPDATE_INTERVAL)
      then (d, [])
      (* Do NOT send requests unless the size will change *)
      else if decide (width = guac_rdp_get_width context
                      ∧ height = guac_rdp_get_height context)
      then (d, [])
      else ({| disp := disp d; last_request := now;
               requested_width := width; requested_height := height |},
            [monitors])
  end.

(** [guac_rdp_disp_set_size], lines 111-131. *)
Definition guac_rdp_disp_set_size (d : guac_rdp_disp) (context : rdpContext)
    (width height : Z) (now : Z)
  : option (guac_rdp_disp * list DISPLAY_CONTROL_MONITOR_LAYOUT) :=
  (* Fit width within bounds, adjusting height to maintain aspect ratio *)
  '(width, height) ← guac_rdp_disp_fit width height;
  (* Fit height within bounds, adjusting width to maintain aspect ratio *)
  '(height, width) ← guac_rdp_disp_fit height width;
  (* Width must be even *)
  let width :=
    if decide (Z.rem width 2 = 1) then CInt.sub width 1 else width in
  (* Store deferred size *)
  let d := {| disp := disp d; last_request := last_request d;
              requested_width := width; requested_height := height |} in
  (* Send display update notification if possible *)
  Some (guac_rdp_disp_update_size d context now).

(** The size stored by a call of [guac_rdp_disp_set_size], width first, if
    the call returned. *)
Definition requested_size
    (r : option (guac_rdp_disp * list DISPLAY_CONTROL_MONITOR_LAYOUT))
  : option (Z * Z) :=
  '(d, _) ← r; Some (requested_width d, requested_height d).

End Disp.

End RdpDisp.

(** ** Terminal typescript ([src/terminal/typescript.c]) *)

Module Typescript.

(** The decimal digits of [z], as [%i] prints them. *)
Definition decimal (z : Z) : string := NilZero.string_of_int (Z.to_int z).

(** [%0.6f] of [ms / 1000.0] for an [int] [ms]: a count of milliseconds has
    three decimals, and the nearest double prints as that exact decimal
    followed by three zeros. *)
Definition format_seconds (ms : Z) : string :=
  let frac := Z.abs ms mod 1000 in
  (if decide (ms < 0) then "-" else "")
  +:+ decimal (Z.abs ms / 1000) +:+ "."
  +:+ decimal (frac / 100) +:+ decimal (frac / 10 mod 10)
  +:+ decimal (frac mod 10) +:+ "000".

(** The text of ["%0.6f %i\n"]. *)
Definition timing_line (elapsed_time length : Z) : string :=
  format_seconds elapsed_time +:+ " " +:+ decimal length
  +:+ String (ascii_of_nat 10) "".

(** [snprintf(buf, size, ...)] producing [text]: the bytes it stores, at most
    [size - 1] of the text and a NUL, and the length it returns. *)
Definition snprintf (size : nat) (text : string) : list ascii * Z :=
  (take (size - 1) (String.list_ascii_of_string text) ++ [CString.NUL],
   Z.of_nat (String.length text)).

Section Typescript.

(** typescript.h and guac_io.h are not among the sources:
    [sizeof_buffer] is the size of the [buffer] array of a typescript,
    [GUAC_TERMINAL_TYPESCRIPT_MAX_DELAY], the header and the footer are the
    constants of typescript.h, and [guac_common_write fd buffer length]
    is the file behind [fd] after the write of the first [length] bytes of
    [buffer] was attempted. *)
Variable sizeof_buffer : Z.
Variable GUAC_TERMINAL_TYPESCRIPT_MAX_DELAY : Z.
Variables GUAC_TERMINAL_TYPESCRIPT_HEADER GUAC_TERMINAL_TYPESCRIPT_FOOTER
  : string.
Context {file : Type}.
Variable guac_common_write : file → list ascii → Z → file.

(** [guac_terminal_typescript]; a file descriptor stands for the file
    behind it. *)
Record guac_terminal_typescript : Type := {
  buffer : list ascii;
  length : Z;
  data_fd : file;
  timing_fd : file;
  last_flush : Z
}.

(** [guac_terminal_typescript_alloc], lines 109-149, from what [mkdir] and
    the two [open] calls gave ([None] for a descriptor of -1), the bytes of
    the fresh allocation and the current time. *)
Definition guac_terminal_typescript_alloc (create_path mkdir_failed : bool)
    (data_file timing_file : option file) (fresh : list ascii) (now : Z)
  : option guac_terminal_typescript :=
  (* Create path if it does not exist, fail if impossible *)
  if create_path && mkdir_failed then None
  else
    (* Attempt to open typescript data file *)
    data_fd ← data_file;
    (* Attempt to open typescript timing file *)
    timing_fd ← timing_file;
    (* Init newly-created typescript, write header *)
    let header := String.list_ascii_of_string GUAC_TERMINAL_TYPESCRIPT_HEADER in
    Some {| buffer := fresh; length := 0;
            data_fd :=
              guac_common_write data_fd header
                (Z.of_nat (Datatypes.length header) + 1 - 1);
            timing_fd := timing_fd;
            last_flush := now |}.

(** [guac_terminal_typescript_flush], lines 163-199, at the time [now] that
    [guac_timestamp_current] returns. *)
Definition guac_terminal_typescript_flush (now : Z)
    (typescript : guac_terminal_typescript) : guac_terminal_typescript :=
  (* Do nothing if nothing to flush *)
  if decide (length typescript = 0) then typescript
  else
    (* Get timestamps of previous and current flush *)
    let this_flush := now in
    let last_flush := last_flush typescript in
    (* Calculate time since last flush *)
    let elapsed_time := CInt.to_int (CInt.to_int64 (this_flush - last_flush)) in
    let elapsed_time :=
      if decide (elapsed_time > GUAC_TERMINAL_TYPESCRIPT_MAX_DELAY)
      then GUAC_TERMINAL_TYPESCRIPT_MAX_DELAY else elapsed_time in
    (* Produce single line of timestamp output *)
    let '(timestamp_buffer, timestamp_length) :=
      snprintf 32 (timing_line elapsed_time (length typescript)) in
    (* Calculate actual length of timestamp line *)
    let timestamp_length :=
      if decide (timestamp_length > 32) then 32 else timestamp_length in
    {| buffer := buffer typescript;
       (* Buffer is now flushed *)
       length := 0;
       (* Empty buffer into data file *)
       data_fd :=
         guac_common_write (data_fd typescript)
           (buffer typescript) (length typescript);
       (* Write timestamp to timing file *)
       timing_fd :=
         guac_common_write (timing_fd typescript)
           timestamp_buffer timestamp_length;
       last_flush := this_flush |}.

(** The index at which [guac_terminal_typescript_write] stores its byte:
    the length after the flush of a full buffer. *)
Definition append_index (now : Z) (typescript : guac_terminal_typescript)
  : Z :=
  length (if decide (length typescript = sizeof_buffer)
          then guac_terminal_typescript_flush now typescript
          else typescript).

(** [guac_terminal_typescript_write], lines 151-161; a store outside the
    buffer has no result. *)
Definition guac_terminal_typescript_write (now : Z)
    (typescript : guac_terminal_typescript) (c : ascii)
  : option guac_terminal_typescript :=
  (* Flush buffer if no space is available *)
  let typescript :=
    if decide (length typescript = sizeof_buffer)
    then guac_terminal_typescript_flush now typescript
    else typescript in
  (* Append single byte to buffer *)
  let i := length typescript in
  if decide (0 ≤ i < sizeof_buffer) then
    Some {| buffer := <[Z.to_nat i := c]> (buffer typescript);
            length := CInt.add i 1;
            data_fd := data_fd typescript;
            timing_fd := timing_fd typescript;
            last_flush := last_flush typescript |}
  else None.

(** [guac_terminal_typescript_free], lines 201-221, for a typescript that is
    not NULL: the data file and the timing file as they are closed. *)
Definition guac_terminal_typescript_free (now : Z)
    (typescript : guac_terminal_typescript) : file * file :=
  (* Flush any pending data *)
  let typescript := guac_terminal_typescript_flush now typescript in
  (* Write footer *)
  let footer := String.list_ascii_of_string GUAC_TERMINAL_TYPESCRIPT_FOOTER in
  (guac_common_write (data_fd typescript) footer
     (Z.of_nat (Datatypes.length footer) + 1 - 1),
   timing_fd typescript).

(** The operations on a typescript that exists, and their effect in order. *)
Inductive operation : Set :=
  | Write (c : ascii)
  | Flush.

Fixpoint run (ops : list (Z * operation))
    (typescript : guac_terminal_typescript)
  : option guac_terminal_typescript :=
  match ops with
  | [] => Some typescript
  | (now, Write c) :: ops' =>
      typescript' ← guac_terminal_typescript_write now typescript c;
      run ops' typescript'
  | (now, Flush) :: ops' =>
      run ops' (guac_terminal_typescript_flush now typescript)
  end.

(** The length invariant of the buffer: [0 <= length <= sizeof(buffer)],
    for a buffer of that size. *)
Definition length_invariant (typescript : guac_terminal_typescript) : Prop :=
  0 ≤ length typescript ≤ sizeof_buffer
  ∧ Z.of_nat (Datatypes.length (buffer typescript)) = sizeof_buffer.

End Typescript.

(** A file as the bytes written to it, every write complete. *)
Definition write_all (fd : list ascii) (bytes : list ascii) (count : Z)
  : list ascii :=
  fd ++ take (Z.to_nat count) bytes.

(** The bytes of the buffer that wait for the next flush. *)
Definition pending {file : Type}
    (typescript : @guac_terminal_typescript file) : list ascii :=
  take (Z.to_nat (length typescript)) (buffer typescript).

(** The bytes that a sequence of operations hands to
    [guac_terminal_typescript_write], in order. *)
Fixpoint written (ops : list (Z * operation)) : list ascii :=
  match ops with
  | [] => []
  | (_, Write c) :: ops' => c :: written ops'
  | (_, Flush) :: ops' => written ops'
  end.

(** The elapsed time that a flush at [now] records, lines 173-176. *)
Definition elapsed (MAX_DELAY now last_flush : Z) : Z :=
  let elapsed_time := CInt.to_int (CInt.to_int64 (now - last_flush)) in
  if decide (elapsed_time > MAX_DELAY) then MAX_DELAY else elapsed_time.

(** The bytes that a flush hands to the timing file for an elapsed time
    and a count of bytes, lines 178-189. *)
Definition timing_entry (elapsed_time count : Z) : list ascii * Z :=
  let '(timestamp_buffer, timestamp_length) :=
    snprintf 32 (timing_line elapsed_time count) in
  (timestamp_buffer,
   if decide (timestamp_length > 32) then 32 else timestamp_length).

(** The bytes that a sequence of flushes, each with its elapsed time and
    the bytes it took from the buffer, hands to the timing file. *)
Fixpoint timing_bytes (flushes : list (Z * list ascii)) : list ascii :=
  match flushes with
  | [] => []
  | (elapsed_time, chunk) :: flushes' =>
      let '(timestamp_buffer, timestamp_length) :=
        timing_entry elapsed_time (Z.of_nat (Datatypes.length chunk)) in
      take (Z.to_nat timestamp_length) timestamp_buffer
      ++ timing_bytes flushes'
  end.

(** Flushes as a run can make them: each one with bytes in it, at most as
    many as the buffer has, its elapsed time at most the maximum delay. *)
Definition flushes_valid (sizeof_buffer MAX_DELAY : Z)
    (flushes : list (Z * list ascii)) : Prop :=
  Forall (λ f, f.2 ≠ [] ∧ f.1 ≤ MAX_DELAY
               ∧ Z.of_nat (Datatypes.length f.2) ≤ sizeof_buffer) flushes.

(** *** The data file of a typescript, lines 39-107 *)

(** The values of [errno] that the function tells apart. *)
Inductive errno : Set :=
  | EEXIST
  | ENAMETOOLONG
  | EOTHER (code : Z).

(** What [open] returns: a descriptor, which stands for the name that was
    opened, or -1 with [errno] set. *)
Inductive open_result : Set :=
  | Opened (pathname : string)
  | OpenFailed (e : errno).

(** The file system as [open] with [O_CREAT | O_EXCL] sees it: the names
    that exist, and the error that the creation of a name meets, if any. *)
Record filesystem : Type := {
  existing : gset string;
  refused : string → option Z
}.

(** [open(pathname, O_CREAT | O_EXCL | O_WRONLY, S_IRUSR | S_IWUSR)] *)
Definition open_excl (fs : filesystem) (pathname : string)
  : filesystem * open_result :=
  if decide (pathname ∈ existing fs) then (fs, OpenFailed EEXIST)
  else
    match refused fs pathname with
    | Some code => (fs, OpenFailed (EOTHER code))
    | None =>
        ({| existing := {[pathname]} ∪ existing fs; refused := refused fs |},
         Opened pathname)
    end.

(** [mkdir(pathname, S_IRWXU)]: the file system afterwards, and [None] for
    a return of 0, the [errno] for a return of -1.  The directory is made
    when the name does not exist and its creation meets no error.  A new
    directory changes what the file system refuses below it: [refused'] is
    what it refuses once the directory exists. *)
Definition mkdir (fs : filesystem) (pathname : string)
    (refused' : string → option Z) : filesystem * option errno :=
  if decide (pathname ∈ existing fs) then (fs, Some EEXIST)
  else
    match refused fs pathname with
    | Some code => (fs, Some (EOTHER code))
    | None =>
        ({| existing := {[pathname]} ∪ existing fs; refused := refused' |},
         None)
    end.

(** [mkdir(path, S_IRWXU) && errno != EEXIST] of line 118, from what
    [mkdir] gave. *)
Definition mkdir_fails (result : option errno) : bool :=
  match result with
  | None | Some EEXIST => false
  | Some _ => true
  end.

(** A store of [bytes] from index [offset] of a buffer on; it has no result
    when it leaves the buffer. *)
Definition store_bytes (offset : Z) (bytes buf : list ascii)
  : option (list ascii) :=
  if decide (0 ≤ offset
             ∧ offset + Z.of_nat (Datatypes.length bytes)
               ≤ Z.of_nat (Datatypes.length buf))
  then Some (take (Z.to_nat offset) buf ++ bytes
             ++ drop (Z.to_nat offset + Datatypes.length bytes) buf)
  else None.

(** The C string at the start of a buffer; without a NUL in the buffer the
    read leaves it and has no result. *)
Fixpoint load_string (buf : list ascii) : option string :=
  match buf with
  | [] => None
  | c :: buf' =>
      if decide (c = CString.NUL) then Some EmptyString
      else String c <$> load_string buf'
  end.

(** What [snprintf(buf, size, ...)] stores for a [size] computed in [int]
    and converted to [size_t]: nothing for 0, else the text cut to
    [size - 1] bytes and a NUL; a negative [size] converts to one above
    every length. *)
Definition snprintf_stored (size : Z) (text : list ascii) : list ascii :=
  if decide (size = 0) then []
  else if decide (size < 0) then text ++ [CString.NUL]
  else take (Z.to_nat (size - 1)) text ++ [CString.NUL].

Section DataFile.

(** The two remaining constants of typescript.h that the function uses. *)
Variable GUAC_TERMINAL_TYPESCRIPT_MAX_SUFFIX_LENGTH : Z.
Variable GUAC_TERMINAL_TYPESCRIPT_MAX_SUFFIX : Z.

(** The loop of lines 92-103 with [n] values of [i] left to try, at
    [basename + suffix] for the digits. *)
Fixpoint retry_suffixes (n : nat) (i suffix : Z) (fs : filesystem)
    (basename : list ascii) (data_fd : open_result)
  : option (filesystem * list ascii * open_result) :=
  match data_fd, n with
  | OpenFailed EEXIST, S n' =>
      (* Append new suffix *)
      basename ←
        store_bytes suffix
          (String.list_ascii_of_string (decimal i) ++ [CString.NUL])
          basename;
      (* Retry with newly-suffixed filename *)
      pathname ← load_string basename;
      let '(fs, data_fd) := open_excl fs pathname in
      retry_suffixes n' (i + 1) suffix fs basename data_fd
  | _, _ => Some (fs, basename, data_fd)
  end.

(** [guac_terminal_typescript_open_data_file], lines 65-107: the file
    system and the buffer afterwards and what is returned; nothing when a
    store or a read leaves the buffer. *)
Definition guac_terminal_typescript_open_data_file (fs : filesystem)
    (path name : string) (basename : list ascii) (basename_size : Z)
  : option (filesystem * list ascii * open_result) :=
  let size := basename_size - GUAC_TERMINAL_TYPESCRIPT_MAX_SUFFIX_LENGTH in
  let text :=
    String.list_ascii_of_string
      (CString.c_str path +:+ "/" +:+ CString.c_str name) in
  (* Concatenate path and name (separated by a single slash) *)
  let basename_length := Z.of_nat (Datatypes.length text) in
  basename ← store_bytes 0 (snprintf_stored size text) basename;
  (* Abort if maximum length reached *)
  if decide (basename_length = size) then
    Some (fs, basename, OpenFailed ENAMETOOLONG)
  else
    (* Attempt to open typescript data file *)
    pathname ← load_string basename;
    let '(fs, data_fd) := open_excl fs pathname in
    (* Prepare basename for additional suffix *)
    basename ← store_bytes basename_length ["."%char] basename;
    let suffix := basename_length + 1 in
    (* Continue retrying alternative suffixes if file already exists *)
    retry_suffixes (Z.to_nat GUAC_TERMINAL_TYPESCRIPT_MAX_SUFFIX) 1 suffix
      fs basename data_fd.

(** The names the function can open for a path and a name: the two joined
    by a slash, then that name with the suffixes .1, .2, ... *)
Definition candidate (path name : string) (i : Z) : string :=
  let base := CString.c_str path +:+ "/" +:+ CString.c_str name in
  if decide (i = 0) then base else base +:+ "." +:+ decimal i.

(** The buffer while the suffixes are tried: the text of the base name, the
    dot behind it, and room for the longest suffix and its NUL. *)
Definition suffix_buffer (path name : string) (basename_size : Z)
    (buf : list ascii) : Prop :=
  let text :=
    String.list_ascii_of_string
      (CString.c_str path +:+ "/" +:+ CString.c_str name) in
  take (S (Datatypes.length text)) buf = text ++ ["."%char]
  ∧ Z.of_nat (Datatypes.length buf) = basename_size
  ∧ Z.of_nat (Datatypes.length text) + 1
    + GUAC_TERMINAL_TYPESCRIPT_MAX_SUFFIX_LENGTH ≤ basename_size.

(** What a call may have done to the file system [fs0] when it returns [r]
    and leaves [fs]: created the one file it opened, which did not exist,
    or nothing. *)
Definition created_by (fs0 fs : filesystem) (r : open_result) : Prop :=
  refused fs = refused fs0
  ∧ match r with
    | Opened pathname =>
        (pathname ∉ existing fs0)
        ∧ existing fs = {[pathname]} ∪ existing fs0
    | OpenFailed _ => fs = fs0
    end.

(** The calls of [mkdir] and [open] in [guac_terminal_typescript_alloc],
    lines 118-134, on a file system, for a [basename] array of
    [basename_size] bytes: the file system afterwards and the names behind
    [data_fd] and [timing_fd], [None] for a descriptor of -1 or a call that
    was not made.  These are the [data_file] and [timing_file] of
    [guac_terminal_typescript_alloc] above, whose [mkdir_failed] is
    [mkdir_fails] of what [mkdir] gave. *)
Definition guac_terminal_typescript_alloc_open (fs : filesystem)
    (path name : string) (create_path : bool)
    (refused' : string → option Z)
    (basename : list ascii) (basename_size : Z)
  : option (filesystem * option string * option string) :=
  (* Create path if it does not exist, fail if impossible *)
  let '(fs, result) :=
    if create_path then mkdir fs (CString.c_str path) refused'
    else (fs, None) in
  if create_path && mkdir_fails result then Some (fs, None, None)
  else
    (* Attempt to open typescript data file *)
    '(fs, _, data_fd) ←
      guac_terminal_typescript_open_data_file fs path name
        basename basename_size;
    match data_fd with
    | OpenFailed _ => Some (fs, None, None)
    | Opened data =>
        (* Attempt to open typescript timing file *)
        match open_excl fs "/tmp/typescript-timing" with
        | (fs, Opened timing) => Some (fs, Some data, Some timing)
        | (fs, OpenFailed _) => Some (fs, Some data, None)
        end
    end.

(** One call of [guac_terminal_typescript_alloc]: its arguments, what the
    file system refuses once the directory of the call exists, and the
    bytes that the [basename] array holds when the call starts. *)
Record alloc_call : Type := {
  call_path : string;
  call_name : string;
  call_create_path : bool;
  call_refused : string → option Z;
  call_basename : list ascii
}.

(** Calls of [guac_terminal_typescript_alloc] made one after the other,
    each on the file system that the one before left: the file system after
    the last, and for each call the names behind its [data_fd] and its
    [timing_fd]. *)
Fixpoint guac_terminal_typescript_alloc_open_all (fs : filesystem)
    (basename_size : Z) (calls : list alloc_call)
  : option (filesystem * list (option string * option string)) :=
  match calls with
  | [] => Some (fs, [])
  | c :: calls' =>
      '(fs, data, timing) ←
        guac_terminal_typescript_alloc_open fs (call_path c) (call_name c)
          (call_create_path c) (call_refused c) (call_basename c)
          basename_size;
      '(fs, opened) ←
        guac_terminal_typescript_alloc_open_all fs basename_size calls';
      Some (fs, (data, timing) :: opened)
  end.

End DataFile.

End Typescript.

(** ** Example data

    The concrete inputs at which the properties below are instantiated. *)

Module Examples.

Import CString Guacenc Replay RdpDisp Typescript.

(** A table in which stream 1 is open and holds no bytes yet. *)
Definition one_open_stream : gmap Z stream := stream_open 1 "image/png" ∅.

(** The data "A", NUL, "B" and "A", NUL, "C": three bytes each, equal up to
    the NUL. *)
Definition data_nul_B : string := String "A" (String NUL "B").
Definition data_nul_C : string := String "A" (String NUL "C").

(** A sink that counts the frames it was handed and has room for [room] of
    them, behind an encoder that knows one codec and wants a positive
    size. *)
Definition counting_init (room : nat) (out_path codec : string)
    (width height bitrate : Z) : option (nat * nat) :=
  if decide (codec = "mpeg4" ∧ 0 < width ∧ 0 < height)
  then Some (0%nat, room) else None.

Definition counting_write (enc : nat * nat) (d : unit) : option (nat * nat) :=
  if decide (enc.1 < enc.2)%nat then Some (S enc.1, enc.2) else None.

Definition sync (timestamp : string) : instruction :=
  {| opcode := "sync"; args := [timestamp] |}.

(** Four dumps: a session that disconnects before its truncated end, a dump
    cut inside an instruction, one whose clock runs backwards, and one with
    a blob instruction that lacks its data. *)
Definition dumps (path : string) : list instruction * parse_end :=
  if decide (path = "session") then
    ([sync "0"; {| opcode := "blob"; args := ["1"; "QUJD"] |};
      {| opcode := "nop"; args := [] |}; sync "1000";
      {| opcode := "disconnect"; args := [] |}; sync "0"],
     IncompleteInstruction)
  else if decide (path = "truncated") then
    ([sync "0"], IncompleteInstruction)
  else if decide (path = "backwards") then
    ([sync "1000"; sync "999"], CleanEndOfStream)
  else
    ([{| opcode := "blob"; args := ["1"] |}], CleanEndOfStream).

Definition encode_dump (room : nat) (path codec : string) : Z :=
  guacenc_encode 1000 () (counting_init room) counting_write dumps
    (λ _, None) path "out.m4v" codec 640 480 2000000.

(** The bounds and the interval of upstream rdp_disp.h, a module that is
    not connected, and a remote display of 1024 by 768. *)
Definition set_size_200_8192 (width height : Z) : option (Z * Z) :=
  requested_size
    (guac_rdp_disp_set_size 200 8192 500 (λ _ : unit, 1024) (λ _, 768)
       (guac_rdp_disp_alloc (DispClientContext := unit)) ()
       width height 0).

(** A typescript with a buffer of four bytes, full, flushed last at time
    1000, over files that take every byte written. *)
Definition full_typescript : @guac_terminal_typescript (list ascii) :=
  {| buffer := ["a"; "b"; "c"; "d"]%char; length := 4;
     data_fd := []; timing_fd := []; last_flush := 1000 |}.

Definition flush4 :=
  guac_terminal_typescript_flush 86400000 write_all.
Definition write4 :=
  guac_terminal_typescript_write 4 86400000 write_all.

(** A fresh buffer of four bytes, the typescript allocated over it at time
    1000 on two empty files, and two sequences of operations on it: seven
    writes with a flush after the second, and six writes. *)
Definition fresh4 : list ascii := ["?"; "?"; "?"; "?"]%char.

Definition alloc4 (data_file : option (list ascii))
  : option (@guac_terminal_typescript (list ascii)) :=
  guac_terminal_typescript_alloc "[BEGIN]" write_all
    false false data_file (Some []) fresh4 1000.

Definition allocated4 : @guac_terminal_typescript (list ascii) :=
  {| buffer := fresh4; length := 0;
     data_fd := String.list_ascii_of_string "[BEGIN]";
     timing_fd := []; last_flush := 1000 |}.

Definition hello_ops : list (Z * operation) :=
  [(1100, Write "h"); (1200, Write "e"); (1300, Flush); (1400, Write "l");
   (1500, Write "l"); (1600, Write "o"); (1700, Write "!");
   (1800, Write "?")]%char.

Definition abcdef_ops : list (Z * operation) :=
  [(1100, Write "a"); (1200, Write "b"); (1300, Write "c");
   (1400, Write "d"); (1500, Write "e"); (1600, Write "f")]%char.

(** A file system in which /tmp/ts and /tmp/ts.1 exist and every creation
    is possible, one in which /tmp/ts and all its suffixed names up to 3
    exist, and a buffer of 16 bytes for the name. *)
Definition two_typescripts : filesystem :=
  {| existing := {["/tmp/ts"; "/tmp/ts.1"]}; refused := λ _, None |}.

Definition four_typescripts : filesystem :=
  {| existing := {["/tmp/ts"; "/tmp/ts.1"; "/tmp/ts.2"; "/tmp/ts.3"]};
     refused := λ _, None |}.

Definition basename16 : list ascii := replicate 16 "?"%char.

(** A file system in which a typescript is being recorded, and two later
    calls: one for another name, one that has its directory made. *)
Definition timing_taken : filesystem :=
  {| existing := {["/tmp/typescript-timing"]}; refused := λ _, None |}.

Definition later_calls : list alloc_call :=
  [{| call_path := "/tmp"; call_name := "log"; call_create_path := false;
      call_refused := λ _, None; call_basename := basename16 |};
   {| call_path := "/tmp/d"; call_name := "ts"; call_create_path := true;
      call_refused := λ _, None; call_basename := basename16 |}].

(** A display update module before and after its channel is connected,
    and the calls on it with the bounds 200 and 8192, the interval 500 and
    a remote display of 1024 by 768. *)
Definition disp_unconnected : @guac_rdp_disp unit := guac_rdp_disp_alloc.

Definition disp_connected : @guac_rdp_disp unit :=
  guac_rdp_disp_connect guac_rdp_disp_alloc ().

Definition set_size_at (d : @guac_rdp_disp unit) (width height now : Z)
  : option (@guac_rdp_disp unit * list DISPLAY_CONTROL_MONITOR_LAYOUT) :=
  guac_rdp_disp_set_size 200 8192 500 (λ _ : unit, 1024) (λ _, 768)
    d () width height now.

Definition update_size_at (d : @guac_rdp_disp unit) (now : Z)
  : @guac_rdp_disp unit * list DISPLAY_CONTROL_MONITOR_LAYOUT :=
  guac_rdp_disp_update_size 500 (λ _ : unit, 1024) (λ _, 768) d () now.

End Examples.

(** * Properties *)

(** ** C integers and C strings *)

Section CFacts.

Import CInt CString.

Lemma to_int_id z : in_int z → to_int z = z.
Proof.
  unfold in_int, INT_MIN, INT_MAX, to_int, wrap. intros H.
  change (2 ^ (32 - 1)) with 2147483648. change (2 ^ 32) with 4294967296.
  rewrite Z.mod_small; lia.
Qed.

Lemma to_int_range z : in_int (to_int z).
Proof.
  unfold in_int, INT_MIN, INT_MAX, to_int, wrap.
  change (2 ^ (32 - 1)) with 2147483648. change (2 ^ 32) with 4294967296.
  pose proof (Z.mod_pos_bound (z + 2147483648) 4294967296). lia.
Qed.

Lemma strlen_c_str s : strlen s = Z.of_nat (String.length (c_str s)).
Proof.
  induction s as [|c s IH]; simpl; [done|].
  destruct (decide (c = NUL)); simpl; lia.
Qed.

Lemma strlen_le s : 0 ≤ strlen s ≤ Z.of_nat (String.length s).
Proof.
  induction s as [|c s IH]; simpl; [lia|].
  destruct (decide (c = NUL)); lia.
Qed.

(** [strlen] gives the declared length exactly for the strings without a
    NUL byte. *)
Lemma strlen_full s :
  strlen s = Z.of_nat (String.length s)
  ↔ NUL ∉ String.list_ascii_of_string s.
Proof.
  induction s as [|c s IH]; simpl.
  - split; [intros _; apply not_elem_of_nil|done].
  - pose proof (strlen_le s) as Hle.
    rewrite not_elem_of_cons. destruct (decide (c = NUL)) as [->|Hc].
    + split; [lia|]. intros [[] _]. reflexivity.
    + rewrite <- IH. split; [intros H; split; [congruence|lia]|].
      intros [_ H]. lia.
Qed.

Lemma c_str_idemp s : c_str (c_str s) = c_str s.
Proof.
  induction s as [|c s IH]; simpl; [done|].
  destruct (decide (c = NUL)) as [->|Hc]; simpl; [done|].
  destruct (decide (c = NUL)); [done|]. by rewrite IH.
Qed.

Lemma strlen_c_str_idemp s : strlen (c_str s) = strlen s.
Proof. by rewrite !strlen_c_str, c_str_idemp. Qed.

Lemma digits_c_str s : ∀ acc, digits acc (c_str s) = digits acc s.
Proof.
  induction s as [|c s IH]; intros acc; simpl; [done|].
  destruct (decide (c = NUL)) as [->|Hc]; simpl.
  - reflexivity.
  - destruct (digit_of c); [apply IH|done].
Qed.

Lemma skip_space_c_str s : skip_space (c_str s) = c_str (skip_space s).
Proof.
  induction s as [|c s IH]; simpl; [done|].
  destruct (decide (c = NUL)) as [->|Hc]; simpl.
  - reflexivity.
  - destruct (isspace c); [apply IH|]. simpl.
    destruct (decide (c = NUL)); done.
Qed.

(** [strtol], and with it [atoi], reads no further than the first NUL. *)
Lemma strtol_c_str s : strtol (c_str s) = strtol s.
Proof.
  unfold strtol. rewrite skip_space_c_str.
  destruct (skip_space s) as [|c s']; simpl; [done|].
  destruct (decide (c = NUL)) as [->|Hc]; [reflexivity|].
  rewrite !digits_c_str.
  destruct (Ascii.ascii_dec c "-") as [->|]; [done|].
  destruct (Ascii.ascii_dec c "+") as [->|]; [done|].
  destruct c as [[] [] [] [] [] [] [] []]; try done;
    (destruct (digit_of _); [by rewrite digits_c_str|done]).
Qed.

Lemma atoi_c_str s : atoi (c_str s) = atoi s.
Proof. unfold atoi. by rewrite strtol_c_str. Qed.

End CFacts.

(** ** The blob handler *)

Section Blob.

Import CString Guacenc Replay.

Context {W : Type}.
Implicit Types (w : W) (argc : Z) (argv : list string).

(** The handler, one case per path through its body. *)
Lemma guacenc_handle_blob_unfold argc argv w :
  guacenc_handle_blob argc argv w =
    if decide (argc < 2) then Done 1 w [(GUAC_LOG_DEBUG, LOG_blob_incomplete)]
    else
      match argv with
      | a0 :: data :: _ =>
          Done 0 w [(GUAC_LOG_DEBUG, LOG_blob (atoi a0) (strlen data))]
      | _ => Undefined
      end.
Proof.
  unfold guacenc_handle_blob. destruct (decide (argc < 2)); [done|].
  destruct argv as [|a0 [|data argv]]; done.
Qed.

(** The handler is defined on every call that passes as many arguments as
    it announces. *)
Lemma guacenc_handle_blob_defined argc argv w :
  argc = Z.of_nat (length argv) →
  ∃ r log, guacenc_handle_blob argc argv w = Done r w log.
Proof.
  intros Hargc. rewrite guacenc_handle_blob_unfold.
  destruct (decide (argc < 2)); [eauto|].
  destruct argv as [|a0 [|data argv]]; simpl in Hargc; [lia..|eauto].
Qed.

(** C1, as the code has it: a blob instruction with at least 2 arguments is
    handled with result zero and without any change of the state, the
    stream buffers included; the handler only logs the stream index, the
    integer value of argv[0], and the length of the data argv[1]. *)
Theorem guacenc_handle_blob_complete argc argv w :
  argc = Z.of_nat (length argv) →
  2 ≤ argc →
  ∃ a0 data,
    argv !! 0%nat = Some a0 ∧ argv !! 1%nat = Some data
    ∧ guacenc_handle_blob argc argv w
      = Done 0 w [(GUAC_LOG_DEBUG, LOG_blob (atoi a0) (strlen data))].
Proof.
  intros Hargc Hge. rewrite guacenc_handle_blob_unfold.
  destruct (decide (argc < 2)); [lia|].
  destruct argv as [|a0 [|data argv]]; simpl in Hargc; [lia..|].
  exists a0, data. done.
Qed.

(** C2: a blob instruction with fewer than 2 arguments is handled with a
    non-zero result and without any change of the state. *)
Theorem guacenc_handle_blob_incomplete argc argv w :
  argc < 2 →
  ∃ r log, guacenc_handle_blob argc argv w = Done r w log ∧ r ≠ 0.
Proof.
  intros Hlt. rewrite guacenc_handle_blob_unfold.
  destruct (decide (argc < 2)); [|lia].
  exists 1, [(GUAC_LOG_DEBUG, LOG_blob_incomplete)]. done.
Qed.

(** C3, as the code has it: the result of handling a blob instruction is
    the same in every state, whether its stream index is open there or not:
    zero when the instruction has at least 2 arguments, and non-zero only
    when it has fewer. *)
Theorem guacenc_handle_blob_any_state argc argv w w' :
  argc = Z.of_nat (length argv) →
  return_value (guacenc_handle_blob argc argv w)
  = return_value (guacenc_handle_blob argc argv w')
  ∧ logged (guacenc_handle_blob argc argv w)
    = logged (guacenc_handle_blob argc argv w')
  ∧ (return_value (guacenc_handle_blob argc argv w) = Some 0 ↔ 2 ≤ argc)
  ∧ (return_value (guacenc_handle_blob argc argv w) = Some 1 ↔ argc < 2).
Proof.
  intros Hargc. rewrite !guacenc_handle_blob_unfold.
  destruct (decide (argc < 2)); simpl.
  - repeat split; intros; try done; lia.
  - destruct argv as [|a0 [|data argv]]; simpl in Hargc; [lia..|]. simpl.
    repeat split; intros; try done; lia.
Qed.

(** C4, as the code has it: the handler sees each argument as a C string.
    Two instructions whose arguments agree up to the first NUL byte of each
    are handled alike, and the data length the handler processes is
    [strlen], the length up to the first NUL byte: at most the declared
    length, and equal to it exactly when the data holds no NUL byte. *)
Theorem guacenc_handle_blob_c_strings argc argv argv' w :
  c_str <$> argv = c_str <$> argv' →
  guacenc_handle_blob argc argv w = guacenc_handle_blob argc argv' w
  ∧ ∀ a0 data r log,
      argv !! 0%nat = Some a0 → argv !! 1%nat = Some data →
      guacenc_handle_blob argc argv w = Done r w log → r = 0 →
      log = [(GUAC_LOG_DEBUG,
              LOG_blob (atoi a0) (Z.of_nat (String.length (c_str data))))]
      ∧ Z.of_nat (String.length (c_str data)) ≤ Z.of_nat (String.length data)
      ∧ (Z.of_nat (String.length (c_str data)) = Z.of_nat (String.length data)
         ↔ NUL ∉ String.list_ascii_of_string data).
Proof.
  intros Heq. split.
  - rewrite !guacenc_handle_blob_unfold.
    destruct (decide (argc < 2)); [done|].
    destruct argv as [|a0 [|data argv]], argv' as [|a0' [|data' argv']];
      try done.
    simpl in Heq. injection Heq as H0 H1 _.
    rewrite <- (atoi_c_str a0), <- (atoi_c_str a0'), H0.
    rewrite <- (strlen_c_str_idemp data), <- (strlen_c_str_idemp data'), H1.
    done.
  - intros a0 data r log H0 H1. rewrite guacenc_handle_blob_unfold.
    destruct (decide (argc < 2)); [intros [= <- <-] [=]|].
    destruct argv as [|a0' [|data' argv]]; try done.
    simpl in H0, H1. injection H0 as ->. injection H1 as ->.
    intros [= <- <-] _. rewrite <- strlen_c_str.
    split; [done|]. split; [apply strlen_le|apply strlen_full].
Qed.

End Blob.

Section BlobExamples.

Import CString Guacenc Replay Examples.

Lemma guacenc_handle_blob_complete_witness :
  2 = Z.of_nat (length ["1"; "QUJD"]) ∧ 2 ≤ 2
  ∧ ∃ a0 data,
      ["1"; "QUJD"] !! 0%nat = Some a0 ∧ ["1"; "QUJD"] !! 1%nat = Some data
      ∧ guacenc_handle_blob 2 ["1"; "QUJD"] one_open_stream
        = Done 0 one_open_stream
            [(GUAC_LOG_DEBUG, LOG_blob (atoi a0) (strlen data))].
Proof.
  split; [reflexivity|]. split; [lia|].
  apply (guacenc_handle_blob_complete 2 ["1"; "QUJD"]); [reflexivity|lia].
Defined.

(** C1 as stated fails: stream 1 is open and empty, the instruction
    blob(1, "QUJD") is handled with result zero, and the table afterwards
    is not the table with "QUJD" appended to stream 1. *)
Lemma guacenc_handle_blob_no_append :
  ¬ ∃ t' log,
      stream_append (atoi "1") "QUJD" one_open_stream = inr t'
      ∧ guacenc_handle_blob 2 ["1"; "QUJD"] one_open_stream = Done 0 t' log.
Proof.
  intros (t' & log & Happ & Hh).
  rewrite guacenc_handle_blob_unfold in Hh. simpl in Hh.
  injection Hh as <- _.
  change (atoi "1") with 1 in Happ.
  unfold stream_append, one_open_stream, stream_open in Happ.
  rewrite lookup_insert_eq in Happ.
  apply (f_equal (λ r : error_kind + gmap Z stream,
                    match r with
                    | inr t => accumulated <$> t !! 1
                    | inl _ => None
                    end)) in Happ.
  rewrite !lookup_insert_eq in Happ. discriminate Happ.
Qed.

Lemma guacenc_handle_blob_incomplete_witness :
  1 < 2
  ∧ ∃ r log,
      guacenc_handle_blob 1 ["1"] one_open_stream
      = Done r one_open_stream log ∧ r ≠ 0.
Proof.
  split; [lia|].
  apply (guacenc_handle_blob_incomplete 1 ["1"] one_open_stream). lia.
Defined.

(** C3 as stated fails: stream 7 was never opened in the empty table, and
    is closed again in the table that opened and closed it; appending to
    it is a reference error of the stream table, and the handler returns
    zero for blob(7, "QUJD") in both. *)
Lemma guacenc_handle_blob_unopened_stream :
  let never : gmap Z stream := ∅ in
  let closed : gmap Z stream := delete 7 (stream_open 7 "image/png" ∅) in
  stream_append (atoi "7") "QUJD" never = inl ReferenceError
  ∧ return_value (guacenc_handle_blob 2 ["7"; "QUJD"] never) = Some 0
  ∧ stream_close 7 (stream_open 7 "image/png" ∅)
    = inr ({| metadata := "image/png"; accumulated := "" |}, closed)
  ∧ stream_append (atoi "7") "QUJD" closed = inl ReferenceError
  ∧ return_value (guacenc_handle_blob 2 ["7"; "QUJD"] closed) = Some 0.
Proof.
  intros never closed. change (atoi "7") with 7.
  unfold stream_append, stream_close, stream_open, never, closed.
  rewrite lookup_empty, lookup_insert_eq, lookup_delete_eq.
  rewrite !guacenc_handle_blob_unfold. done.
Qed.

Lemma guacenc_handle_blob_any_state_witness :
  let h := guacenc_handle_blob 2 ["7"; "QUJD"] in
  return_value (h ∅) = return_value (h one_open_stream)
  ∧ logged (h ∅) = logged (h one_open_stream)
  ∧ (return_value (h ∅) = Some 0 ↔ 2 ≤ 2)
  ∧ (return_value (h ∅) = Some 1 ↔ 2 < 2).
Proof.
  apply (guacenc_handle_blob_any_state 2 ["7"; "QUJD"] ∅ one_open_stream).
  reflexivity.
Defined.

(** C4 as stated fails: the two data arguments differ after their NUL byte
    and are handled alike, and the length processed for the three bytes
    "A", NUL, "B" is 1. *)
Lemma guacenc_handle_blob_embedded_nul :
  data_nul_B ≠ data_nul_C
  ∧ String.length data_nul_B = 3%nat
  ∧ guacenc_handle_blob 2 ["1"; data_nul_B] one_open_stream
    = guacenc_handle_blob 2 ["1"; data_nul_C] one_open_stream
  ∧ guacenc_handle_blob 2 ["1"; data_nul_B] one_open_stream
    = Done 0 one_open_stream [(GUAC_LOG_DEBUG, LOG_blob 1 1)].
Proof.
  split; [discriminate|]. split; [reflexivity|].
  rewrite !guacenc_handle_blob_unfold. done.
Qed.

Lemma guacenc_handle_blob_c_strings_witness :
  c_str <$> ["1"; data_nul_B] = c_str <$> ["1"; data_nul_C]
  ∧ guacenc_handle_blob 2 ["1"; data_nul_B] one_open_stream
    = guacenc_handle_blob 2 ["1"; data_nul_C] one_open_stream.
Proof.
  split; [reflexivity|].
  apply (guacenc_handle_blob_c_strings 2 ["1"; data_nul_B]
           ["1"; data_nul_C] one_open_stream).
  reflexivity.
Defined.

End BlobExamples.

(** ** The frame clock *)

Section FrameClock.

Import Replay.

Variable I : Z.
Implicit Types (ts : list Z) (r : clock_run) (fc : frame_clock).

Lemma frame_clock_sync_error T fc e :
  frame_clock_sync I T fc = inl e →
  e = OrderingError ∧ ordering_violation T fc = true.
Proof.
  unfold frame_clock_sync. destruct (ordering_violation T fc).
  - by intros [= <-].
  - destruct (last_emitted fc); discriminate.
Qed.

Lemma frame_clock_sync_ok T fc k fc' :
  frame_clock_sync I T fc = inr (k, fc') →
  ordering_violation T fc = false ∧ last_timestamp fc' = Some T.
Proof.
  unfold frame_clock_sync. destruct (ordering_violation T fc); [done|].
  destruct (last_emitted fc); intros [= <- <-]; done.
Qed.

Lemma ordering_violation_true T fc :
  ordering_violation T fc = true
  ↔ ∃ L, last_timestamp fc = Some L ∧ T < L.
Proof.
  unfold ordering_violation. destruct (last_timestamp fc) as [L|].
  - rewrite bool_decide_eq_true. split; [eauto|]. by intros (? & [= <-] & ?).
  - split; [done|]. by intros (? & ? & ?).
Qed.

Lemma descends_cons T ts :
  descends (T :: ts) ↔ (∃ T', T' ∈ ts ∧ T' < T) ∨ descends ts.
Proof.
  split.
  - intros (i & j & ti & tj & Hij & Hi & Hj & Hlt).
    destruct j as [|j]; [lia|]. destruct i as [|i]; simpl in *.
    + left. injection Hi as <-. exists tj. split; [|done].
      apply list_elem_of_lookup. eauto.
    + right. exists i, j, ti, tj. split; [lia|done].
  - intros [(T' & Hin & Hlt)|(i & j & ti & tj & Hij & Hi & Hj & Hlt)].
    + apply list_elem_of_lookup in Hin as [j Hj].
      exists 0%nat, (S j), T, T'. split; [lia|done].
    + exists (S i), (S j), ti, tj. split; [lia|done].
Qed.

Lemma non_decreasing_cons T ts :
  non_decreasing (T :: ts) ↔ (∀ T', T' ∈ ts → T ≤ T') ∧ non_decreasing ts.
Proof.
  split.
  - intros Hnd. split.
    + intros T' [j Hj]%list_elem_of_lookup.
      apply (Hnd 0%nat (S j)); [lia|done..].
    + intros i j ti tj Hij Hi Hj. apply (Hnd (S i) (S j)); [lia|done..].
  - intros [Hhd Hnd] i j ti tj Hij Hi Hj.
    destruct j as [|j]; [lia|]. destruct i as [|i]; simpl in *.
    + injection Hi as <-. apply Hhd, list_elem_of_lookup. eauto.
    + apply (Hnd i j); [lia|done..].
Qed.

(** A run that halts stopped at the first timestamp the clock refused:
    what it leaves is the run over the timestamps before that one, with
    the error. *)
Lemma frame_clock_run_halted ts : ∀ r e,
  halted r = None →
  halted (frame_clock_run I ts r) = Some e →
  ∃ n T,
    ts !! n = Some T
    ∧ halted (frame_clock_run I (take n ts) r) = None
    ∧ processed (frame_clock_run I (take n ts) r) = (processed r + n)%nat
    ∧ frame_clock_sync I T (clock (frame_clock_run I (take n ts) r)) = inl e
    ∧ frame_clock_run I ts r
      = halt_with e (frame_clock_run I (take n ts) r).
Proof.
  induction ts as [|T ts IH]; intros r e Hr Hhalt; simpl in *; [congruence|].
  destruct (frame_clock_sync I T (clock r)) as [e'|[k fc]] eqn:Hsync.
  - simpl in Hhalt. injection Hhalt as ->.
    exists 0%nat, T. simpl. rewrite Nat.add_0_r. done.
  - apply IH in Hhalt as (n & T' & Hn & Hnone & Hproc & He & Hrun); [|done].
    exists (S n), T'. simpl. rewrite Hsync.
    split; [done|]. split; [done|]. split; [|done].
    rewrite Hproc. simpl. lia.
Qed.

(** A timestamp below the last observed one, now or later, halts the run
    with an ordering error. *)
Lemma frame_clock_run_descends ts : ∀ r,
  (∃ L T, last_timestamp (clock r) = Some L ∧ T ∈ ts ∧ T < L) ∨ descends ts →
  halted (frame_clock_run I ts r) = Some OrderingError.
Proof.
  induction ts as [|T ts IH]; intros r Hbad; simpl.
  - destruct Hbad as [(L & T & _ & Hin & _)|(i & j & ti & tj & _ & Hi & _)].
    + by apply elem_of_nil in Hin.
    + by rewrite lookup_nil in Hi.
  - destruct (frame_clock_sync I T (clock r)) as [e|[k fc]] eqn:Hsync.
    + apply frame_clock_sync_error in Hsync as [-> _]. done.
    + apply frame_clock_sync_ok in Hsync as [Hok Hlast]. apply IH. simpl.
      destruct Hbad as [(L & T' & HL & Hin & Hlt)|Hdesc].
      * apply elem_of_cons in Hin as [->|Hin].
        -- assert (ordering_violation T (clock r) = true) as Hv
             by (apply ordering_violation_true; eauto).
           congruence.
        -- left. exists T, T'.
           assert (¬ T < L).
           { intros HTL.
             assert (ordering_violation T (clock r) = true) as Hv
               by (apply ordering_violation_true; eauto).
             congruence. }
           split; [done|]. split; [done|lia].
      * apply descends_cons in Hdesc as [(T' & Hin & Hlt)|Hdesc].
        -- left. exists T, T'. done.
        -- by right.
Qed.

(** Timestamps that never go below the last observed one are all
    processed, and the run does not halt. *)
Lemma frame_clock_run_non_decreasing ts : ∀ r,
  halted r = None →
  (∀ L T, last_timestamp (clock r) = Some L → T ∈ ts → L ≤ T) →
  non_decreasing ts →
  halted (frame_clock_run I ts r) = None
  ∧ processed (frame_clock_run I ts r) = (processed r + length ts)%nat.
Proof.
  induction ts as [|T ts IH]; intros r Hr Hlast Hnd; simpl.
  - split; [done|lia].
  - apply non_decreasing_cons in Hnd as [Hhd Hnd].
    destruct (frame_clock_sync I T (clock r)) as [e|[k fc]] eqn:Hsync.
    + apply frame_clock_sync_error in Hsync as [_ Hv].
      apply ordering_violation_true in Hv as (L & HL & Hlt).
      specialize (Hlast L T HL (list_elem_of_here _ _)). lia.
    + apply frame_clock_sync_ok in Hsync as [_ Hfc].
      destruct (IH {| processed := S (processed r);
                      frames := (frames r + k)%nat;
                      clock := fc; halted := None |}) as [Hh Hp];
        [done| |done|].
      * simpl. intros L T'. rewrite Hfc. intros [= <-]. apply Hhd.
      * split; [done|]. rewrite Hp. simpl. lia.
Qed.

(** C5: a sequence of synchronization timestamps in which one is lower
    than one observed before it halts the clock with an ordering error at
    the first timestamp lower than its predecessor, with nothing after it
    processed: what is left is what the timestamps before it left.  A
    non-decreasing sequence is processed to its end without error. *)
Theorem frame_clock_run_ordering ts :
  (descends ts →
   ∃ n T before,
     ts !! n = Some T
     ∧ before = frame_clock_run I (take n ts) clock_run_init
     ∧ halted before = None
     ∧ processed before = n
     ∧ (∃ L, last_timestamp (clock before) = Some L ∧ T < L)
     ∧ frame_clock_run I ts clock_run_init = halt_with OrderingError before)
  ∧ (non_decreasing ts →
     halted (frame_clock_run I ts clock_run_init) = None
     ∧ processed (frame_clock_run I ts clock_run_init) = length ts).
Proof.
  split.
  - intros Hdesc.
    pose proof (frame_clock_run_descends ts clock_run_init (or_intror Hdesc))
      as Hhalt.
    destruct (frame_clock_run_halted ts clock_run_init OrderingError
                eq_refl Hhalt) as (n & T & Hn & Hnone & Hproc & He & Hrun).
    apply frame_clock_sync_error in He as [_ Hv].
    apply ordering_violation_true in Hv.
    exists n, T, (frame_clock_run I (take n ts) clock_run_init).
    repeat split; done.
  - intros Hnd.
    apply (frame_clock_run_non_decreasing ts clock_run_init); done.
Qed.

End FrameClock.

Section FrameClockExamples.

Import Replay.

Lemma frame_clock_run_ordering_witness :
  descends [0; 1000; 500; 2000]
  ∧ (∃ n T before,
       [0; 1000; 500; 2000] !! n = Some T
       ∧ before = frame_clock_run 1000 (take n [0; 1000; 500; 2000])
                    clock_run_init
       ∧ halted before = None
       ∧ processed before = n
       ∧ (∃ L, last_timestamp (clock before) = Some L ∧ T < L)
       ∧ frame_clock_run 1000 [0; 1000; 500; 2000] clock_run_init
         = halt_with OrderingError before)
  ∧ non_decreasing [0; 1000; 1000; 2500]
  ∧ halted (frame_clock_run 1000 [0; 1000; 1000; 2500] clock_run_init) = None
  ∧ processed (frame_clock_run 1000 [0; 1000; 1000; 2500] clock_run_init)
    = length [0; 1000; 1000; 2500].
Proof.
  assert (descends [0; 1000; 500; 2000]) as Hdesc.
  { exists 1%nat, 2%nat, 1000, 500.
    split; [lia|]. split; [reflexivity|]. split; [reflexivity|lia]. }
  assert (non_decreasing [0; 1000; 1000; 2500]) as Hnd.
  { intros i j ti tj Hij Hi Hj.
    destruct i as [|[|[|[|i]]]], j as [|[|[|[|j]]]];
      simpl in Hi, Hj; try discriminate; try lia;
      injection Hi as <-; injection Hj as <-; lia. }
  split; [exact Hdesc|]. split.
  - exact (proj1 (frame_clock_run_ordering 1000 [0; 1000; 500; 2000]) Hdesc).
  - split; [exact Hnd|].
    exact (proj2 (frame_clock_run_ordering 1000 [0; 1000; 1000; 2500]) Hnd).
Defined.

(** The run over 0, 1000, 500, 2000 at an interval of 1000: two timestamps
    processed, two frames due, the third timestamp refused, the fourth
    never looked at. *)
Example frame_clock_run_halts_at_500 :
  frame_clock_run 1000 [0; 1000; 500; 2000] clock_run_init
  = {| processed := 2; frames := 2;
       clock := {| last_timestamp := Some 1000; last_emitted := Some 1000 |};
       halted := Some OrderingError |}.
Proof. reflexivity. Qed.

(** Idle duplication and burst collapsing (section 8, properties 3 and 4)
    at an interval of 40: three frames for the gap from 100 to 220, none
    for the synchronization 20 after the first. *)
Example frame_clock_idle_duplication :
  frames (frame_clock_run 40 [100; 220] clock_run_init) = (1 + 3)%nat.
Proof. reflexivity. Qed.

Example frame_clock_burst_collapsing :
  frames (frame_clock_run 40 [100; 120] clock_run_init) = 1%nat.
Proof. reflexivity. Qed.

End FrameClockExamples.

(** ** The encode operation *)

Section EncodeFacts.

Import CString Guacenc Replay.

Context {display encoder : Type}.
Variable frame_interval : Z.
Variable display_init : display.
Variable encoder_init : string → string → Z → Z → Z → option encoder.
Variable encoder_write : encoder → display → option encoder.
Variable parse_dump : string → list instruction * parse_end.
Variable handlers :
  string → option (Z → list string → handler (@replay_state display encoder) Z).

Local Abbreviation replay' :=
  (replay frame_interval encoder_write handlers).
Local Abbreviation encode_result' :=
  (encode_result frame_interval display_init encoder_init encoder_write
     parse_dump handlers).
Local Abbreviation guacenc_encode' :=
  (guacenc_encode frame_interval display_init encoder_init encoder_write
     parse_dump handlers).

(** The replay of a dump always ends, finished or failed. *)
Lemma replay_terminal instrs ending : ∀ st,
  replay' instrs ending st = Finished
  ∨ ∃ e, replay' instrs ending st = Failed e.
Proof.
  induction instrs as [|i instrs IH]; intros st; simpl.
  - destruct ending; eauto.
  - destruct (dispatch _ _ _ i st); eauto.
Qed.

(** A framing error at the end of the instructions fails a replay that got
    there. *)
Lemma replay_framing_error ending st :
  ending ≠ CleanEndOfStream → replay' [] ending st = Failed FramingError.
Proof. destruct ending; done. Qed.

(** An error ends the replay with that error, whatever follows. *)
Lemma replay_first_error i instrs ending st e :
  dispatch frame_interval encoder_write handlers i st = Failed e →
  replay' (i :: instrs) ending st = Failed e.
Proof. simpl. by intros ->. Qed.

(** A sink whose writes all succeed takes any number of frames. *)
Lemma write_frames_total k : ∀ enc d,
  (∀ enc' d', is_Some (encoder_write enc' d')) →
  is_Some (write_frames encoder_write k enc d).
Proof.
  induction k as [|k IH]; intros enc d Htotal; simpl; [eauto|].
  destruct (Htotal enc d) as [enc' ->]. by apply IH.
Qed.

(** The replay of synchronization instructions is the run of the frame
    clock over their timestamps, while the sink takes the frames: the error
    that halts the clock fails the replay, and a clock that runs to the end
    leaves the replay at the end of the stream. *)
Lemma replay_syncs instrs ending : ∀ st r,
  Forall is_sync instrs →
  (∀ enc d, is_Some (encoder_write enc d)) →
  halted r = None →
  clock r = fclock st →
  let run :=
    frame_clock_run frame_interval (sync_timestamp <$> instrs) r in
  (∀ e, halted run = Some e → replay' instrs ending st = Failed e)
  ∧ (halted run = None →
     ∃ st', replay' instrs ending st = replay' [] ending st'
            ∧ fclock st' = clock run).
Proof.
  induction instrs as [|i instrs IH]; intros st r Hsync Htotal Hr Hclock.
  - simpl. split; [congruence|]. intros _. exists st. done.
  - apply Forall_cons in Hsync as [[Hop Hargs] Hsync].
    cbn [fmap list_fmap frame_clock_run replay]. unfold dispatch.
    rewrite Hop. destruct (decide ("sync" = "disconnect")); [done|].
    destruct (decide ("sync" = "sync")); [|done].
    unfold sync_timestamp. destruct (args i) as [|a args']; [done|].
    rewrite <- Hclock.
    destruct (frame_clock_sync frame_interval (strtol a) (clock r))
      as [err|[k fc]].
    + simpl. split; [by intros ? [= <-]|done].
    + destruct (write_frames_total k (sink st) (model st) Htotal)
        as [enc ->].
      apply IH; done.
Qed.

(** The ordering claim at the level of the replay: from the start of a
    replay whose sink takes every frame, synchronization instructions with
    a timestamp lower than an earlier one fail with an ordering error, and
    with non-decreasing timestamps the replay reaches the end of the
    stream. *)
Lemma replay_sync_ordering instrs ending st :
  Forall is_sync instrs →
  (∀ enc d, is_Some (encoder_write enc d)) →
  fclock st = frame_clock_init →
  (descends (sync_timestamp <$> instrs) →
   replay' instrs ending st = Failed OrderingError)
  ∧ (non_decreasing (sync_timestamp <$> instrs) →
     ∃ st', replay' instrs ending st = replay' [] ending st').
Proof.
  intros Hsync Htotal Hclock.
  destruct (replay_syncs instrs ending st clock_run_init Hsync Htotal
              eq_refl (eq_sym Hclock)) as [Hfail Hend].
  split.
  - intros Hdesc. apply Hfail.
    by apply (frame_clock_run_descends frame_interval _ clock_run_init),
      or_intror.
  - intros Hnd.
    destruct (frame_clock_run_non_decreasing frame_interval
                (sync_timestamp <$> instrs) clock_run_init)
      as [Hnone _]; [done..|].
    destruct (Hend Hnone) as (st' & Hst' & _). eauto.
Qed.

Lemma encode_result_terminal path out_path codec width height bitrate :
  encode_result' path out_path codec width height bitrate = Finished
  ∨ ∃ e, encode_result' path out_path codec width height bitrate = Failed e.
Proof.
  unfold encode_result.
  destruct (encoder_init out_path codec width height bitrate); [|eauto].
  destruct (parse_dump path). apply replay_terminal.
Qed.

(** The disconnect opcode, and no other, ends the replay successfully. *)
Lemma dispatch_finished i st :
  dispatch frame_interval encoder_write handlers i st = Finished
  ↔ opcode i = "disconnect".
Proof.
  unfold dispatch. split.
  - destruct (decide (opcode i = "disconnect")); [done|].
    destruct (decide (opcode i = "sync")).
    + destruct (args i) as [|a ?]; [done|].
      destruct (frame_clock_sync _ _ _) as [?|[k fc]]; [done|].
      by destruct (write_frames _ _ _ _).
    + destruct (handler_of _ _) as [h|]; [|done].
      by destruct (h _ _ _) as [[| |] ? ?|].
  - intros ->. by destruct (decide ("disconnect" = "disconnect")).
Qed.

(** The replay of instructions is the replay of what follows a prefix
    from where the prefix left the dispatcher. *)
Lemma replay_app pre post ending : ∀ st,
  replay' (pre ++ post) ending st
  = match replay_prefix frame_interval encoder_write handlers pre st with
    | Replaying st' => replay' post ending st'
    | terminal => terminal
    end.
Proof.
  induction pre as [|i pre IH]; intros st; simpl; [done|].
  destruct (dispatch _ _ _ i st); [apply IH|done..].
Qed.

(** A replay finishes exactly when the instructions up to the first
    disconnect, or all of them before a clean end of the stream, left the
    dispatcher replaying. *)
Lemma replay_finished_iff instrs ending : ∀ st,
  replay' instrs ending st = Finished
  ↔ ∃ pre st',
      replay_prefix frame_interval encoder_write handlers pre st
      = Replaying st'
      ∧ (instrs = pre ∧ ending = CleanEndOfStream
         ∨ ∃ i post, instrs = pre ++ i :: post ∧ opcode i = "disconnect").
Proof.
  intros st. split.
  - revert st. induction instrs as [|i instrs IH]; intros st; simpl.
    + destruct ending; [|done..]. intros _. exists [], st. eauto.
    + destruct (dispatch _ _ _ i st) as [st1| |e] eqn:Hi; [| |done].
      * intros (pre & st' & Hpre & Hend)%IH. exists (i :: pre), st'.
        simpl. rewrite Hi. split; [done|].
        destruct Hend as [[-> ->]|(j & post & -> & Hj)]; [by left|].
        right. by exists j, post.
      * intros _. exists [], st. split; [done|]. right.
        exists i, instrs. split; [done|]. by apply dispatch_finished in Hi.
  - intros (pre & st' & Hpre & [[-> ->]|(i & post & -> & Hi)]).
    + rewrite <- (app_nil_r pre), replay_app, Hpre. done.
    + rewrite replay_app, Hpre. simpl.
      by rewrite (proj2 (dispatch_finished i st') Hi).
Qed.

(** The first instruction that fails where the replay reached it fails the
    replay with its error, whatever follows it. *)
Lemma replay_fails_at pre i post ending st st' e :
  replay_prefix frame_interval encoder_write handlers pre st = Replaying st' →
  dispatch frame_interval encoder_write handlers i st' = Failed e →
  replay' (pre ++ i :: post) ending st = Failed e.
Proof. intros Hpre Hi. rewrite replay_app, Hpre. simpl. by rewrite Hi. Qed.

(** A dump that ends inside an instruction fails the replay that gets to
    its end. *)
Lemma replay_fails_at_end instrs ending st st' :
  replay_prefix frame_interval encoder_write handlers instrs st
  = Replaying st' →
  ending ≠ CleanEndOfStream →
  replay' instrs ending st = Failed FramingError.
Proof.
  intros Hpre Hend. rewrite <- (app_nil_r instrs), replay_app, Hpre.
  by apply replay_framing_error.
Qed.

(** A handler that does not return zero is a semantic error. *)
Lemma dispatch_semantic_error i st h :
  opcode i ≠ "disconnect" → opcode i ≠ "sync" →
  handler_of handlers (opcode i) = Some h →
  (∀ st' log, h (Z.of_nat (length (args i))) (args i) st ≠ Done 0 st' log) →
  dispatch frame_interval encoder_write handlers i st = Failed SemanticError.
Proof.
  intros Hd Hs Hh Hret. unfold dispatch.
  destruct (decide (opcode i = "disconnect")); [done|].
  destruct (decide (opcode i = "sync")); [done|]. rewrite Hh.
  destruct (h _ _ _) as [[| |] st' log|] eqn:Hrun; try done.
  by destruct (Hret st' log).
Qed.

(** A frame that is due and that the sink does not take is a write
    error. *)
Lemma dispatch_write_error i st k fc :
  is_sync i →
  frame_clock_sync frame_interval (sync_timestamp i) (fclock st)
  = inr (k, fc) →
  write_frames encoder_write k (sink st) (model st) = None →
  dispatch frame_interval encoder_write handlers i st
  = Failed EncoderWriteError.
Proof.
  intros [Hop Hargs] Hclock Hwrite. unfold dispatch, sync_timestamp in *.
  rewrite Hop. destruct (decide ("sync" = "disconnect")); [done|].
  destruct (decide ("sync" = "sync")); [|done].
  destruct (args i) as [|a ?]; [done|]. by rewrite Hclock, Hwrite.
Qed.

(** C6: [guacenc_encode] returns zero exactly when the replay completed
    successfully: the encoder was initialized, and the instructions of the
    dump up to its first disconnect, or all of them before a clean end of
    the stream, each left the dispatcher replaying.  It returns a non-zero
    value whenever an error prevented that, whatever follows the error in
    the dump: the encoder that could not be initialized; a dump that ends
    inside an instruction (a parse error); an instruction that fails where
    the replay reached it, as one whose handler does not return zero does
    (a semantic error) and a synchronization with a frame due that the sink
    does not take (a write error). *)
Theorem guacenc_encode_zero_iff_finished
    path out_path codec width height bitrate :
  let result :=
    encode_result frame_interval display_init encoder_init encoder_write
      parse_dump handlers path out_path codec width height bitrate in
  let ret :=
    guacenc_encode frame_interval display_init encoder_init encoder_write
      parse_dump handlers path out_path codec width height bitrate in
  let instrs := (parse_dump path).1 in
  let ending := (parse_dump path).2 in
  let reached pre st :=
    ∃ enc,
      encoder_init out_path codec width height bitrate = Some enc
      ∧ replay_prefix frame_interval encoder_write handlers pre
          (replay_start display_init enc)
        = Replaying st in
  (ret = 0 ↔
   ∃ pre st,
     reached pre st
     ∧ (instrs = pre ∧ ending = CleanEndOfStream
        ∨ ∃ i post, instrs = pre ++ i :: post ∧ opcode i = "disconnect"))
  ∧ (encoder_init out_path codec width height bitrate = None →
     result = Failed EncoderInitError ∧ ret ≠ 0)
  ∧ (∀ st,
       reached instrs st → ending ≠ CleanEndOfStream →
       result = Failed FramingError ∧ ret ≠ 0)
  ∧ (∀ pre i post st e,
       instrs = pre ++ i :: post → reached pre st →
       dispatch frame_interval encoder_write handlers i st = Failed e →
       result = Failed e ∧ ret ≠ 0)
  ∧ (∀ pre i post st h,
       instrs = pre ++ i :: post → reached pre st →
       opcode i ≠ "disconnect" → opcode i ≠ "sync" →
       handler_of handlers (opcode i) = Some h →
       (∀ st' log,
          h (Z.of_nat (length (args i))) (args i) st ≠ Done 0 st' log) →
       result = Failed SemanticError ∧ ret ≠ 0)
  ∧ (∀ pre i post st k fc,
       instrs = pre ++ i :: post → reached pre st → is_sync i →
       frame_clock_sync frame_interval (sync_timestamp i) (fclock st)
       = inr (k, fc) →
       write_frames encoder_write k (sink st) (model st) = None →
       result = Failed EncoderWriteError ∧ ret ≠ 0).
Proof.
  intros result ret instrs ending reached. subst reached. cbv beta.
  assert (ret = 0 ↔ result = Finished) as Hzero.
  { subst ret. unfold guacenc_encode. fold result. by destruct result. }
  assert (∀ e, result = Failed e → result = Failed e ∧ ret ≠ 0) as Hret.
  { intros e He. split; [done|]. rewrite Hzero, He. done. }
  assert (encoder_init out_path codec width height bitrate = None →
          result = Failed EncoderInitError) as Hnone.
  { intros Hinit. subst result. unfold encode_result. by rewrite Hinit. }
  assert (∀ enc,
            encoder_init out_path codec width height bitrate = Some enc →
            result = replay' instrs ending (replay_start display_init enc))
    as Hresult.
  { intros enc Hinit. subst result instrs ending. unfold encode_result.
    rewrite Hinit. by destruct (parse_dump path). }
  clearbody result ret instrs ending.
  assert (∀ pre i post st e,
            instrs = pre ++ i :: post →
            (∃ enc,
               encoder_init out_path codec width height bitrate = Some enc
               ∧ replay_prefix frame_interval encoder_write handlers pre
                   (replay_start display_init enc)
                 = Replaying st) →
            dispatch frame_interval encoder_write handlers i st = Failed e →
            result = Failed e ∧ ret ≠ 0) as Hfails.
  { intros pre i post st e Hinstrs (enc & Hinit & Hpre) Hi.
    apply Hret. rewrite (Hresult enc Hinit), Hinstrs.
    by apply replay_fails_at with st. }
  split; [|split; [|split; [|split; [done|split]]]].
  - rewrite Hzero.
    destruct (encoder_init out_path codec width height bitrate)
      as [enc|] eqn:Hinit.
    + rewrite (Hresult enc eq_refl), replay_finished_iff. split.
      * intros (pre & st & Hpre & Hend). exists pre, st.
        split; [by exists enc|done].
      * intros (pre & st & (enc' & [= <-] & Hpre) & Hend). by exists pre, st.
    + rewrite (Hnone eq_refl). split; [done|].
      by intros (? & ? & (? & ? & _) & _).
  - intros Hinit. by apply Hret, Hnone.
  - intros st (enc & Hinit & Hpre) Hend. apply Hret.
    rewrite (Hresult enc Hinit). by apply replay_fails_at_end with st.
  - intros pre i post st h Hinstrs Hreached Hd Hs Hh Hnonzero.
    apply (Hfails pre i post st); [done..|].
    by apply dispatch_semantic_error with h.
  - intros pre i post st k fc Hinstrs Hreached Hsync Hclock Hwrite.
    apply (Hfails pre i post st); [done..|].
    by apply dispatch_write_error with k fc.
Qed.

End EncodeFacts.

Section EncodeExamples.

Import Guacenc Replay Examples.

Lemma guacenc_encode_zero_iff_finished_witness :
  (dumps "incomplete").1 = [] ++ [{| opcode := "blob"; args := ["1"] |}]
  ∧ counting_init 2 "out.m4v" "mpeg4" 640 480 2000000 = Some (0%nat, 2%nat)
  ∧ guacenc_handle_blob 1 ["1"] (replay_start () (0%nat, 2%nat))
    = Done 1 (replay_start () (0%nat, 2%nat))
        [(GUAC_LOG_DEBUG, LOG_blob_incomplete)]
  ∧ encode_dump 2 "incomplete" "mpeg4" ≠ 0.
Proof.
  split; [reflexivity|]. split; [reflexivity|]. split; [reflexivity|].
  destruct (guacenc_encode_zero_iff_finished 1000 () (counting_init 2)
              counting_write dumps (λ _, None)
              "incomplete" "out.m4v" "mpeg4" 640 480 2000000)
    as (_ & _ & _ & _ & Hsemantic & _).
  destruct (Hsemantic [] {| opcode := "blob"; args := ["1"] |} []
              (replay_start () (0%nat, 2%nat)) guacenc_handle_blob)
    as [_ Hret].
  - reflexivity.
  - exists (0%nat, 2%nat). split; reflexivity.
  - discriminate.
  - discriminate.
  - reflexivity.
  - intros st' log Hzero. discriminate Hzero.
  - exact Hret.
Defined.

(** The session is encoded with result zero; each of the errors gives a
    non-zero result: the framing error, the ordering error, the blob
    handler's non-zero return, the sink that is full after one frame. *)
Example guacenc_encode_scenarios :
  encode_dump 2 "session" "mpeg4" = 0
  ∧ encode_dump 2 "truncated" "mpeg4" = 1
  ∧ encode_dump 2 "backwards" "mpeg4" = 1
  ∧ encode_dump 2 "incomplete" "mpeg4" = 1
  ∧ encode_dump 1 "session" "mpeg4" = 1.
Proof. repeat split; vm_compute; reflexivity. Qed.

End EncodeExamples.

(** ** The size of the RDP display *)

Section DispFacts.

Import CInt RdpDisp.

Variables MIN MAX INTERVAL : Z.
Context {DispClientContext rdpContext : Type}.
Variables get_width get_height : rdpContext → Z.

Local Abbreviation fit := (guac_rdp_disp_fit MIN MAX).
Local Abbreviation update_size :=
  (guac_rdp_disp_update_size (DispClientContext := DispClientContext)
     INTERVAL get_width get_height).
Local Abbreviation set_size :=
  (guac_rdp_disp_set_size (DispClientContext := DispClientContext)
     MIN MAX INTERVAL get_width get_height).

(** Sending the update leaves the requested size as it is. *)
Lemma guac_rdp_disp_update_size_requested d context now :
  requested_width (update_size d context now).1 = requested_width d
  ∧ requested_height (update_size d context now).1 = requested_height d.
Proof.
  unfold guac_rdp_disp_update_size.
  destruct (disp d); [|done]. repeat case_decide; done.
Qed.

(** What [guac_rdp_disp_set_size] stores, from the two fits. *)
Lemma guac_rdp_disp_set_size_requested d context width height now :
  requested_size (set_size d context width height now)
  = '(width1, height1) ← fit width height;
    '(height2, width2) ← fit height1 width1;
    Some (if decide (Z.rem width2 2 = 1) then sub width2 1 else width2,
          height2).
Proof.
  unfold guac_rdp_disp_set_size, requested_size.
  destruct (fit width height) as [[width1 height1]|]; [|done]. simpl.
  destruct (fit height1 width1) as [[height2 width2]|]; [|done]. simpl.
  match goal with
  | |- context [update_size ?d' context now] =>
      pose proof (guac_rdp_disp_update_size_requested d' context now)
        as [Hw Hh];
      destruct (update_size d' context now) as [d'' sent]
  end.
  simpl in *. by rewrite Hw, Hh.
Qed.

Section InRange.

(** The bounds are positive and ordered, and the square of the upper one
    fits an [int]. *)
Hypothesis MIN_pos : 1 ≤ MIN.
Hypothesis MIN_MAX : MIN ≤ MAX.
Hypothesis MAX_square : MAX * MAX ≤ INT_MAX.

Lemma in_int_nonneg z : 0 ≤ z ≤ INT_MAX → in_int z.
Proof. unfold in_int, INT_MIN, INT_MAX. lia. Qed.

(** One fit whose product does not overflow: the first dimension is
    clamped, the other scaled and clamped on the far side. *)
Lemma guac_rdp_disp_fit_no_overflow a b :
  1 ≤ a ≤ INT_MAX → 0 ≤ b ≤ INT_MAX → b * MAX ≤ INT_MAX →
  ∃ b',
    fit a b = Some (Z.max MIN (Z.min a MAX), b')
    ∧ (a < MIN → b' = Z.min (b * MIN / a) MAX)
    ∧ (MAX < a → b' = Z.max (b * MAX / a) MIN)
    ∧ (MIN ≤ a ≤ MAX → b' = b).
Proof.
  intros Ha Hb Hprod. unfold guac_rdp_disp_fit, div, mul.
  assert (∀ c, 1 ≤ c ≤ MAX → to_int (to_int (b * c) ÷ a) = b * c / a)
    as Hquot.
  { intros c Hc.
    assert (0 ≤ b * c ≤ INT_MAX) as Hbc by nia.
    rewrite (to_int_id (b * c)) by by apply in_int_nonneg.
    rewrite Z.quot_div_nonneg by lia.
    apply to_int_id, in_int_nonneg. split.
    - apply Z.div_pos; lia.
    - apply Z.le_trans with (b * c); [|lia].
      apply Z.div_le_upper_bound; nia. }
  destruct (decide (a < MIN)) as [Hlt|Hge].
  - case_decide; [lia|]. simpl. rewrite Hquot by lia.
    eexists. split; [|split; [intros _; reflexivity|split; intros; lia]].
    f_equal. f_equal; [lia|]. case_decide; lia.
  - destruct (decide (a > MAX)) as [Hgt|Hle].
    + case_decide; [lia|]. simpl. rewrite Hquot by lia.
      eexists. split; [|split; [lia|split; [intros _; reflexivity|lia]]].
      f_equal. f_equal; [lia|]. case_decide; lia.
    + exists b. split; [|lia]. f_equal. f_equal. lia.
Qed.

(** Where no product overflows, the stored size is within the bounds and
    its width is even, for an even lower bound. *)
Lemma guac_rdp_disp_set_size_no_overflow d context width height now :
  Z.even MIN = true →
  1 ≤ width → 1 ≤ height →
  width * MAX ≤ INT_MAX → height * MAX ≤ INT_MAX →
  ∃ w h,
    requested_size (set_size d context width height now) = Some (w, h)
    ∧ MIN ≤ w ≤ MAX ∧ MIN ≤ h ≤ MAX ∧ Z.even w = true.
Proof.
  intros Heven Hw Hh Hwmax Hhmax.
  rewrite guac_rdp_disp_set_size_requested.
  destruct (guac_rdp_disp_fit_no_overflow width height)
    as (height1 & -> & Hlo & Hhi & Hmid); [nia..|]. simpl.
  set (width1 := Z.max MIN (Z.min width MAX)).
  assert (MIN ≤ width1 ≤ MAX) as Hw1 by lia.
  assert (1 ≤ height1 ≤ INT_MAX) as Hh1.
  { destruct (decide (width < MIN)); [|destruct (decide (MAX < width))].
    - rewrite Hlo by done.
      assert (1 ≤ height * MIN / width)
        by (apply Z.div_le_lower_bound; nia).
      nia.
    - rewrite Hhi by done.
      assert (height * MAX / width ≤ height)
        by (apply Z.div_le_upper_bound; nia).
      nia.
    - rewrite Hmid by lia. nia. }
  destruct (guac_rdp_disp_fit_no_overflow height1 width1)
    as (width2 & -> & Hlo2 & Hhi2 & Hmid2); [nia..|]. simpl.
  assert (MIN ≤ width2 ≤ MAX) as Hw2.
  { destruct (decide (height1 < MIN)); [|destruct (decide (MAX < height1))].
    - rewrite Hlo2 by done.
      assert (width1 ≤ width1 * MIN / height1)
        by (apply Z.div_le_lower_bound; nia).
      lia.
    - rewrite Hhi2 by done.
      assert (width1 * MAX / height1 ≤ width1)
        by (apply Z.div_le_upper_bound; nia).
      lia.
    - rewrite Hmid2 by lia. lia. }
  pose proof (Zmod_even width2) as Hmod. pose proof (Zmod_even MIN) as HmodM.
  rewrite Heven in HmodM. rewrite Z.rem_mod_nonneg by lia.
  destruct (Z.even width2) eqn:Hev.
  - exists width2, (Z.max MIN (Z.min height1 MAX)).
    case_decide; [lia|]. repeat split; try done; lia.
  - exists (width2 - 1), (Z.max MIN (Z.min height1 MAX)).
    case_decide; [|lia]. unfold sub.
    assert (width2 ≠ MIN) by (intros ->; lia).
    rewrite to_int_id by (apply in_int_nonneg; nia).
    repeat split; try lia.
    rewrite Z.even_sub, Hev. done.
Qed.

End InRange.

End DispFacts.

Section DispOverflow.

Import CInt RdpDisp.

Variables MIN MAX INTERVAL : Z.
Context {DispClientContext rdpContext : Type}.
Variables get_width get_height : rdpContext → Z.

Lemma to_int_above z :
  INT_MAX < z ≤ INT_MAX + 4294967296 → to_int z = z - 4294967296.
Proof.
  unfold INT_MAX, to_int, wrap. intros Hz.
  change (2 ^ (32 - 1)) with 2147483648. change (2 ^ 32) with 4294967296.
  replace (z + 2147483648)
    with (z - 2147483648 + 1 * 4294967296) by lia.
  rewrite Z_mod_plus_full, Z.mod_small; lia.
Qed.

(** For every lower bound from 2 to 46340 there is a height whose product
    with the bound overflows an [int]: at width 1 the first fit makes the
    height negative, the second fit divides by it, and the width stored is
    0, below the lower bound. *)
Lemma guac_rdp_disp_set_size_overflow
    (d : @guac_rdp_disp DispClientContext) context now :
  2 ≤ MIN ≤ 46340 → MIN ≤ MAX →
  let height := 2 ^ 31 / MIN + 1 in
  1 ≤ height ≤ INT_MAX
  ∧ requested_size
      (guac_rdp_disp_set_size MIN MAX INTERVAL get_width get_height
         d context 1 height now)
    = Some (0, MIN).
Proof.
  intros HMIN HMAX height. change (2 ^ 31) with 2147483648 in height.
  assert (2147483648 < height * MIN ≤ 2147483648 + MIN) as Hprod.
  { pose proof (Z.div_mod 2147483648 MIN) as Hdm.
    pose proof (Z.mod_pos_bound 2147483648 MIN) as Hmod.
    subst height. nia. }
  assert (1 ≤ height ≤ INT_MAX) as Hheight.
  { unfold INT_MAX. subst height.
    assert (0 ≤ 2147483648 / MIN) by (apply Z.div_pos; lia).
    assert (2147483648 / MIN ≤ 1073741824)
      by (apply Z.div_le_upper_bound; lia).
    lia. }
  split; [done|].
  set (N := height * MIN - 4294967296).
  assert (-2147483648 < N ≤ -2147483648 + MIN) as HN by (subst N; lia).
  assert (guac_rdp_disp_fit MIN MAX 1 height = Some (MIN, N)) as Hfit1.
  { unfold guac_rdp_disp_fit, div, mul.
    destruct (decide (1 < MIN)); [|lia]. destruct (decide (1 = 0 ∨ _)); [lia|].
    rewrite (to_int_above (height * MIN)) by (unfold INT_MAX; lia).
    fold N.
    rewrite Z.quot_1_r, to_int_id by (unfold in_int, INT_MIN, INT_MAX; lia).
    simpl. destruct (decide (N > MAX)); [lia|done]. }
  assert (guac_rdp_disp_fit MIN MAX N MIN = Some (MIN, 0)) as Hfit2.
  { unfold guac_rdp_disp_fit, div, mul.
    destruct (decide (N < MIN)); [|lia].
    destruct (decide (N = 0 ∨ _)); [lia|].
    rewrite (to_int_id (MIN * MIN))
      by (unfold in_int, INT_MIN, INT_MAX; nia).
    assert (MIN * MIN ÷ N = 0) as ->
      by (apply Z.quot_small_iff; [lia|nia]).
    change (to_int 0) with 0. simpl.
    destruct (decide (0 > MAX)); [lia|done]. }
  rewrite guac_rdp_disp_set_size_requested, Hfit1. simpl.
  rewrite Hfit2. simpl.
  destruct (decide (Z.rem 0 2 = 1)); done.
Qed.

End DispOverflow.

Section DispExamples.

Import CInt RdpDisp Examples.

(** C7 fails on the code, for the bounds 200 and 8192 of upstream
    rdp_disp.h, in every state of the module: the sizes below are positive
    and fit an [int]; at height 10737419 the product with 200 overflows and
    the width stored is 0, outside the bounds; at height 536870912 the
    product wraps to 0, the first fit stores the height 0, and the second
    fit divides by it. *)
Theorem guac_rdp_disp_set_size_out_of_range
    (INTERVAL : Z) {DispClientContext rdpContext : Type}
    (guac_rdp_get_width guac_rdp_get_height : rdpContext → Z)
    (d : @guac_rdp_disp DispClientContext) (context : rdpContext) (now : Z) :
  let set_size :=
    guac_rdp_disp_set_size 200 8192 INTERVAL
      guac_rdp_get_width guac_rdp_get_height d context in
  in_int 10737419 ∧ in_int 536870912
  ∧ requested_size (set_size 1 10737419 now) = Some (0, 200)
  ∧ guac_rdp_disp_fit 200 8192 1 536870912 = Some (200, 0)
  ∧ guac_rdp_disp_fit 200 8192 0 200 = None
  ∧ set_size 1 536870912 now = None.
Proof.
  intros set_size. subst set_size.
  split; [by vm_compute|]. split; [by vm_compute|].
  split; [by rewrite guac_rdp_disp_set_size_requested|].
  split; [reflexivity|]. split; [reflexivity|].
  unfold guac_rdp_disp_set_size.
  change (guac_rdp_disp_fit 200 8192 1 536870912) with (Some (200, 0)).
  simpl. change (guac_rdp_disp_fit 200 8192 0 200) with (@None (Z * Z)).
  reflexivity.
Qed.

(** A size whose products do not overflow is stored within the bounds. *)
Example guac_rdp_disp_set_size_1025_769 :
  set_size_200_8192 1025 769 = Some (1024, 769).
Proof. reflexivity. Qed.

Lemma guac_rdp_disp_set_size_overflow_witness :
  2 ≤ 200 ≤ 46340 ∧ 200 ≤ 8192
  ∧ 1 ≤ 2 ^ 31 / 200 + 1 ≤ INT_MAX
  ∧ set_size_200_8192 1 (2 ^ 31 / 200 + 1) = Some (0, 200).
Proof.
  split; [lia|]. split; [lia|].
  apply (guac_rdp_disp_set_size_overflow 200 8192 500 (λ _ : unit, 1024)
           (λ _, 768) (guac_rdp_disp_alloc (DispClientContext := unit))
           () 0); lia.
Defined.

Lemma guac_rdp_disp_set_size_no_overflow_witness :
  ∃ w h,
    set_size_200_8192 100 50 = Some (w, h)
    ∧ 200 ≤ w ≤ 8192 ∧ 200 ≤ h ≤ 8192 ∧ Z.even w = true.
Proof.
  apply (guac_rdp_disp_set_size_no_overflow 200 8192 500 (λ _ : unit, 1024)
           (λ _, 768)); unfold INT_MAX; (reflexivity || lia).
Defined.

End DispExamples.

(** ** The typescript buffer *)

Section TypescriptFacts.

Import CInt Typescript.

Variable sizeof_buffer : Z.
Variable MAX_DELAY : Z.
Variables HEADER FOOTER : string.
Context {file : Type}.
Variable guac_common_write : file → list ascii → Z → file.

Local Abbreviation typescript_alloc :=
  (guac_terminal_typescript_alloc HEADER guac_common_write).
Local Abbreviation flush :=
  (guac_terminal_typescript_flush MAX_DELAY guac_common_write).
Local Abbreviation write :=
  (guac_terminal_typescript_write sizeof_buffer MAX_DELAY guac_common_write).
Local Abbreviation index :=
  (append_index sizeof_buffer MAX_DELAY guac_common_write).
Local Abbreviation invariant := (length_invariant (file := file) sizeof_buffer).

Implicit Types (typescript : @guac_terminal_typescript file) (now : Z).

(** A flush leaves an empty buffer, and the bytes of the buffer where they
    were. *)
Lemma guac_terminal_typescript_flush_length now typescript :
  length (flush now typescript) = 0
  ∧ buffer (flush now typescript) = buffer typescript.
Proof.
  unfold guac_terminal_typescript_flush.
  destruct (decide (length typescript = 0)); done.
Qed.

(** A flush of an empty buffer does nothing. *)
Lemma guac_terminal_typescript_flush_empty now typescript :
  length typescript = 0 → flush now typescript = typescript.
Proof.
  intros Hlen. unfold guac_terminal_typescript_flush.
  destruct (decide (length typescript = 0)); done.
Qed.

(** A flush of a buffer that holds bytes writes one line to the timing file
    and the bytes to the data file. *)
Lemma guac_terminal_typescript_flush_writes now typescript :
  length typescript ≠ 0 →
  data_fd (flush now typescript)
  = guac_common_write (data_fd typescript) (buffer typescript)
      (length typescript)
  ∧ last_flush (flush now typescript) = now
  ∧ ∃ line count,
      timing_fd (flush now typescript)
      = guac_common_write (timing_fd typescript) line count.
Proof.
  intros Hlen. unfold guac_terminal_typescript_flush.
  destruct (decide (length typescript = 0)); [done|]. simpl. eauto.
Qed.

(** C8: with a buffer of at least one byte whose size fits an [int], the
    invariant [0 <= length <= sizeof(buffer)] holds after the allocation
    and is kept by a flush and by a write.  A flush leaves length 0.  A
    write stores its byte at an index within the buffer, which is 0 after
    the flush of a full buffer and the length otherwise; it flushes exactly
    when the buffer is full, and leaves the files alone when it is not. *)
Theorem guac_terminal_typescript_length_invariant now typescript c :
  let flushed :=
    guac_terminal_typescript_flush MAX_DELAY guac_common_write
      now typescript in
  let i := append_index sizeof_buffer MAX_DELAY guac_common_write
             now typescript in
  1 ≤ sizeof_buffer ≤ INT_MAX →
  length_invariant sizeof_buffer typescript →
  (∀ create_path mkdir_failed data_file timing_file fresh allocated,
     Z.of_nat (Datatypes.length fresh) = sizeof_buffer →
     guac_terminal_typescript_alloc HEADER guac_common_write
       create_path mkdir_failed data_file timing_file fresh now
     = Some allocated →
     length_invariant sizeof_buffer allocated ∧ length allocated = 0)
  ∧ length_invariant sizeof_buffer flushed
  ∧ length flushed = 0
  ∧ 0 ≤ i < sizeof_buffer
  ∧ i = (if decide (length typescript = sizeof_buffer) then 0
         else length typescript)
  ∧ ∃ typescript',
      guac_terminal_typescript_write sizeof_buffer MAX_DELAY
        guac_common_write now typescript c = Some typescript'
      ∧ length_invariant sizeof_buffer typescript'
      ∧ length typescript' = i + 1
      ∧ buffer typescript' !! Z.to_nat i = Some c
      ∧ (length typescript = sizeof_buffer →
         data_fd typescript' = data_fd flushed
         ∧ timing_fd typescript' = timing_fd flushed
         ∧ last_flush typescript' = now)
      ∧ (length typescript ≠ sizeof_buffer →
         data_fd typescript' = data_fd typescript
         ∧ timing_fd typescript' = timing_fd typescript
         ∧ last_flush typescript' = last_flush typescript).
Proof.
  intros flushed i Hsize [Hlen Hbuf]. subst flushed i.
  destruct (guac_terminal_typescript_flush_length now typescript)
    as [Hflen Hfbuf].
  split.
  { intros create_path mkdir_failed data_file timing_file fresh allocated
      Hfresh. unfold guac_terminal_typescript_alloc.
    destruct (create_path && mkdir_failed); [done|].
    destruct data_file; [|done]. destruct timing_file; [|done]. simpl.
    intros [= <-]. unfold length_invariant. simpl. lia. }
  split. { unfold length_invariant. rewrite Hflen, Hfbuf. lia. }
  split; [done|].
  assert (index now typescript
          = if decide (length typescript = sizeof_buffer) then 0
            else length typescript) as Hindex.
  { unfold append_index. case_decide; done. }
  assert (0 ≤ index now typescript < sizeof_buffer) as Hrange.
  { rewrite Hindex. case_decide; lia. }
  split; [done|]. split; [done|].
  unfold guac_terminal_typescript_write. fold (index now typescript).
  destruct (decide (0 ≤ index now typescript < sizeof_buffer)); [|done].
  eexists. split; [reflexivity|]. simpl.
  assert (add (index now typescript) 1 = index now typescript + 1) as Hadd.
  { unfold add. apply to_int_id. unfold in_int, INT_MIN. lia. }
  assert (buffer (if decide (length typescript = sizeof_buffer)
                  then flush now typescript else typescript)
          = buffer typescript) as Hsame.
  { case_decide; done. }
  rewrite Hsame. split.
  { unfold length_invariant. simpl. rewrite Hadd, length_insert. lia. }
  split; [done|]. split.
  { apply list_lookup_insert_eq. lia. }
  split; intros Hfull.
  - destruct (decide (length typescript = sizeof_buffer)); [|done].
    split; [done|]. split; [done|].
    apply (guac_terminal_typescript_flush_writes now typescript). lia.
  - destruct (decide (length typescript = sizeof_buffer)); done.
Qed.

(** C9: a flush of an empty buffer changes nothing, neither the files nor
    another field of the typescript, and so a flush right after a flush
    changes nothing: the files are as the first flush left them. *)
Theorem guac_terminal_typescript_flush_idempotent now now' typescript :
  let flushed :=
    guac_terminal_typescript_flush MAX_DELAY guac_common_write
      now typescript in
  let flushed_again :=
    guac_terminal_typescript_flush MAX_DELAY guac_common_write
      now' flushed in
  (length typescript = 0 → flushed = typescript)
  ∧ flushed_again = flushed
  ∧ data_fd flushed_again = data_fd flushed
  ∧ timing_fd flushed_again = timing_fd flushed.
Proof.
  intros flushed flushed_again.
  assert (flushed_again = flushed) as Hff.
  { apply guac_terminal_typescript_flush_empty,
      guac_terminal_typescript_flush_length. }
  split; [apply guac_terminal_typescript_flush_empty|].
  split; [done|]. by rewrite Hff.
Qed.

(** Every sequence of writes and flushes on a typescript that satisfies the
    invariant runs to its end, in a typescript that satisfies it. *)
Lemma run_length_invariant ops : ∀ typescript,
  1 ≤ sizeof_buffer ≤ INT_MAX →
  invariant typescript →
  ∃ typescript',
    run sizeof_buffer MAX_DELAY guac_common_write ops typescript
    = Some typescript'
    ∧ invariant typescript'.
Proof.
  induction ops as [|[now [c|]] ops IH]; intros typescript Hsize Hinv; simpl.
  - eauto.
  - unfold guac_terminal_typescript_write.
    destruct (guac_terminal_typescript_flush_length now typescript)
      as [Hflen Hfbuf].
    destruct Hinv as [Hlen Hbuf].
    set (t := if decide (length typescript = sizeof_buffer)
              then flush now typescript else typescript).
    assert (0 ≤ length t < sizeof_buffer ∧ buffer t = buffer typescript)
      as [Ht Hb] by (subst t; case_decide; split; (done || lia)).
    destruct (decide (0 ≤ length t < sizeof_buffer)); [|done]. simpl.
    apply IH; [done|]. unfold length_invariant, add. simpl.
    rewrite to_int_id by (unfold in_int, INT_MIN; lia).
    rewrite length_insert, Hb. lia.
  - apply IH; [done|].
    destruct (guac_terminal_typescript_flush_length now typescript)
      as [Hflen Hfbuf].
    destruct Hinv. unfold length_invariant. rewrite Hflen, Hfbuf. lia.
Qed.

End TypescriptFacts.

Section TypescriptExamples.

Import CInt Typescript Examples.

Lemma guac_terminal_typescript_length_invariant_witness :
  1 ≤ 4 ≤ INT_MAX
  ∧ length_invariant 4 full_typescript
  ∧ length_invariant 4 (flush4 1500 full_typescript)
  ∧ ∃ typescript',
      write4 1500 full_typescript "e"%char = Some typescript'
      ∧ length_invariant 4 typescript'.
Proof.
  assert (1 ≤ 4 ≤ INT_MAX) as Hsize by (unfold INT_MAX; lia).
  assert (length_invariant 4 full_typescript) as Hinv
    by (unfold length_invariant; simpl; lia).
  split; [exact Hsize|]. split; [exact Hinv|].
  destruct (guac_terminal_typescript_length_invariant 4 86400000
              "" write_all 1500 full_typescript "e"%char Hsize Hinv)
    as (_ & Hflush & _ & _ & _ & typescript' & Hwrite & Hinv' & _).
  split; [exact Hflush|]. exists typescript'. split; [exact Hwrite|exact Hinv'].
Defined.

(** A write to the full buffer 500 ms after the last flush: the four bytes
    go to the data file, their timing line to the timing file, and the new
    byte is the first of the buffer. *)
Example guac_terminal_typescript_write_full :
  write4 1500 full_typescript "e"%char
  = Some {| buffer := ["e"; "b"; "c"; "d"]%char; length := 1;
            data_fd := ["a"; "b"; "c"; "d"]%char;
            timing_fd := String.list_ascii_of_string
                           ("0.500000 4" +:+ String (ascii_of_nat 10) "");
            last_flush := 1500 |}.
Proof. vm_compute. reflexivity. Qed.

Lemma guac_terminal_typescript_flush_idempotent_witness :
  length (flush4 1500 full_typescript) = 0
  ∧ flush4 2000 (flush4 1500 full_typescript) = flush4 1500 full_typescript
  ∧ data_fd (flush4 2000 (flush4 1500 full_typescript))
    = ["a"; "b"; "c"; "d"]%char.
Proof.
  split; [reflexivity|].
  destruct (guac_terminal_typescript_flush_idempotent 86400000 write_all
              1500 2000 full_typescript) as (_ & Hff & Hdata & _).
  split; [exact Hff|]. unfold flush4. rewrite Hdata. reflexivity.
Defined.

End TypescriptExamples.

(** ** The bytes of a typescript *)

Section TypescriptBytes.

Import CInt Typescript.

Variable sizeof_buffer : Z.
Variable MAX_DELAY : Z.
Variables HEADER FOOTER : string.
Context {file : Type}.
Variable guac_common_write : file → list ascii → Z → file.

(** The bytes of a file, for files to which every write is complete. *)
Variable contents : file → list ascii.
Hypothesis write_complete : ∀ fd buf count,
  contents (guac_common_write fd buf count)
  = contents fd ++ take (Z.to_nat count) buf.

(** The buffer has at least one byte, and its size fits an [int]. *)
Hypothesis buffer_size : 1 ≤ sizeof_buffer ≤ INT_MAX.

Local Abbreviation flush :=
  (guac_terminal_typescript_flush MAX_DELAY guac_common_write).
Local Abbreviation write :=
  (guac_terminal_typescript_write sizeof_buffer MAX_DELAY guac_common_write).
Local Abbreviation run' :=
  (run sizeof_buffer MAX_DELAY guac_common_write).
Local Abbreviation invariant := (length_invariant (file := file) sizeof_buffer).

Implicit Types (typescript : @guac_terminal_typescript file) (now : Z).

(** The files after a flush that had bytes to write. *)
Lemma guac_terminal_typescript_flush_files now typescript :
  length typescript ≠ 0 →
  data_fd (flush now typescript)
  = guac_common_write (data_fd typescript) (buffer typescript)
      (length typescript)
  ∧ timing_fd (flush now typescript)
    = guac_common_write (timing_fd typescript)
        (timing_entry
           (elapsed MAX_DELAY now (last_flush typescript))
           (length typescript)).1
        (timing_entry
           (elapsed MAX_DELAY now (last_flush typescript))
           (length typescript)).2.
Proof.
  intros Hlen. unfold guac_terminal_typescript_flush, timing_entry, elapsed.
  destruct (decide (length typescript = 0)); [done|].
  destruct (snprintf 32 _). done.
Qed.

(** A flush moves the pending bytes to the data file. *)
Lemma flush_contents now typescript :
  contents (data_fd (flush now typescript)) ++ pending (flush now typescript)
  = contents (data_fd typescript) ++ pending typescript.
Proof.
  destruct (decide (length typescript = 0)) as [Hlen|Hlen].
  - by rewrite guac_terminal_typescript_flush_empty.
  - destruct (guac_terminal_typescript_flush_files now typescript Hlen)
      as [-> _].
    destruct (guac_terminal_typescript_flush_length MAX_DELAY
                guac_common_write now typescript) as [Hflen Hfbuf].
    unfold pending. rewrite Hflen, write_complete. simpl.
    by rewrite app_nil_r.
Qed.

(** A write adds its byte behind the bytes of the data file and the
    pending ones. *)
Lemma write_contents now typescript c typescript' :
  invariant typescript →
  write now typescript c = Some typescript' →
  contents (data_fd typescript') ++ pending typescript'
  = contents (data_fd typescript) ++ pending typescript ++ [c].
Proof.
  intros [Hlen Hbuf]. unfold guac_terminal_typescript_write.
  pose proof (flush_contents now typescript) as Hflush.
  destruct (guac_terminal_typescript_flush_length MAX_DELAY
              guac_common_write now typescript) as [Hflen Hfbuf].
  set (t := if decide (length typescript = sizeof_buffer)
            then flush now typescript else typescript).
  assert (contents (data_fd t) ++ pending t
          = contents (data_fd typescript) ++ pending typescript
          ∧ Datatypes.length (buffer t) = Datatypes.length (buffer typescript))
    as [Ht Hbt].
  { subst t. case_decide; [|done]. by rewrite Hfbuf. }
  destruct (decide (0 ≤ length t < sizeof_buffer)) as [Hi|]; [|done].
  intros [= <-]. simpl. rewrite app_assoc, <- Ht, <- app_assoc. f_equal.
  unfold pending. simpl.
  assert (Z.to_nat (length t) < Datatypes.length (buffer t))%nat
    by (rewrite Hbt; lia).
  assert (add (length t) 1 = length t + 1) as ->
    by (apply to_int_id; unfold in_int, INT_MIN; lia).
  replace (Z.to_nat (length t + 1)) with (S (Z.to_nat (length t))) by lia.
  rewrite (take_S_r _ _ c) by by apply list_lookup_insert_eq.
  by rewrite take_insert_ge.
Qed.

(** A write on a typescript that satisfies the invariant returns one that
    satisfies it. *)
Lemma write_defined now typescript c :
  invariant typescript →
  ∃ typescript', write now typescript c = Some typescript'
                 ∧ invariant typescript'.
Proof.
  intros Hinv.
  destruct (run_length_invariant sizeof_buffer MAX_DELAY guac_common_write
              [(now, Write c)] typescript buffer_size Hinv)
    as (typescript' & Hrun & Hinv').
  simpl in Hrun. destruct (write now typescript c) as [t|]; [|done].
  simpl in Hrun. injection Hrun as ->. eauto.
Qed.

Lemma flush_invariant now typescript :
  invariant typescript → invariant (flush now typescript).
Proof.
  intros [Hlen Hbuf].
  destruct (guac_terminal_typescript_flush_length MAX_DELAY
              guac_common_write now typescript) as [Hflen Hfbuf].
  unfold length_invariant. rewrite Hflen, Hfbuf. lia.
Qed.

(** Over a run, the bytes of the data file followed by the pending ones
    grow by the bytes written, in their order. *)
Lemma run_contents ops : ∀ typescript,
  invariant typescript →
  ∃ typescript',
    run' ops typescript = Some typescript'
    ∧ invariant typescript'
    ∧ contents (data_fd typescript') ++ pending typescript'
      = contents (data_fd typescript) ++ pending typescript ++ written ops.
Proof.
  induction ops as [|[now [c|]] ops IH]; intros typescript Hinv; simpl.
  - exists typescript. by rewrite app_nil_r.
  - destruct (write_defined now typescript c Hinv) as (t & Hw & Hinvt).
    rewrite Hw. simpl.
    destruct (IH t Hinvt) as (typescript' & Hrun & Hinv' & Hc).
    exists typescript'. split; [done|]. split; [done|].
    rewrite Hc, (app_assoc _ (pending t)),
      (write_contents now typescript c t Hinv Hw).
    by rewrite <- !app_assoc.
  - destruct (IH (flush now typescript) (flush_invariant _ _ Hinv))
      as (typescript' & Hrun & Hinv' & Hc).
    exists typescript'. split; [done|]. split; [done|].
    by rewrite Hc, (app_assoc _ (pending _)), flush_contents, <- app_assoc.
Qed.

(** The typescript that an allocation returns: an empty buffer over the
    data file with the header written. *)
Lemma guac_terminal_typescript_alloc_contents
    create_path mkdir_failed data_file timing_file fresh now allocated :
  Z.of_nat (Datatypes.length fresh) = sizeof_buffer →
  guac_terminal_typescript_alloc HEADER guac_common_write
    create_path mkdir_failed (Some data_file) timing_file fresh now
  = Some allocated →
  invariant allocated
  ∧ pending allocated = []
  ∧ contents (data_fd allocated)
    = contents data_file ++ String.list_ascii_of_string HEADER.
Proof.
  intros Hfresh. unfold guac_terminal_typescript_alloc.
  destruct (create_path && mkdir_failed); [done|]. simpl.
  destruct timing_file; [|done]. simpl. intros [= <-].
  unfold length_invariant, pending. simpl. rewrite write_complete.
  split; [lia|]. split; [done|]. f_equal. apply firstn_all2. lia.
Qed.

(** X1: Nothing is lost, repeated or reordered: at every point after an
    allocation, the data file followed by the pending bytes of the buffer
    is what the file held, the header, and the bytes written so far; no
    write of the sequence stores outside the buffer. *)
Theorem guac_terminal_typescript_bytes_conserved
    create_path mkdir_failed data_file timing_file fresh now allocated ops :
  Z.of_nat (Datatypes.length fresh) = sizeof_buffer →
  guac_terminal_typescript_alloc HEADER guac_common_write
    create_path mkdir_failed (Some data_file) timing_file fresh now
  = Some allocated →
  ∃ typescript',
    run sizeof_buffer MAX_DELAY guac_common_write ops allocated
    = Some typescript'
    ∧ contents (data_fd typescript') ++ pending typescript'
      = contents data_file ++ String.list_ascii_of_string HEADER
        ++ written ops.
Proof.
  intros Hfresh Halloc.
  destruct (guac_terminal_typescript_alloc_contents _ _ _ _ _ _ _
              Hfresh Halloc) as (Hinv & Hpend & Hdata).
  destruct (run_contents ops allocated Hinv) as (t & Hrun & _ & Hc).
  exists t. split; [done|].
  by rewrite Hc, Hpend, Hdata, <- app_assoc.
Qed.

(** X2: Freeing a typescript completes its data file: whatever was flushed
    before, the file closed is what it held, the header, every byte
    written since the allocation, and the footer. *)
Theorem guac_terminal_typescript_free_completes
    create_path mkdir_failed data_file timing_file fresh now allocated ops
    now' :
  Z.of_nat (Datatypes.length fresh) = sizeof_buffer →
  guac_terminal_typescript_alloc HEADER guac_common_write
    create_path mkdir_failed (Some data_file) timing_file fresh now
  = Some allocated →
  ∃ typescript',
    run sizeof_buffer MAX_DELAY guac_common_write ops allocated
    = Some typescript'
    ∧ contents
        (guac_terminal_typescript_free MAX_DELAY FOOTER guac_common_write
           now' typescript').1
      = contents data_file ++ String.list_ascii_of_string HEADER
        ++ written ops ++ String.list_ascii_of_string FOOTER.
Proof.
  intros Hfresh Halloc.
  destruct (guac_terminal_typescript_alloc_contents _ _ _ _ _ _ _
              Hfresh Halloc) as (Hinv & Hpend & Hdata).
  destruct (run_contents ops allocated Hinv) as (t & Hrun & _ & Hc).
  exists t. split; [done|].
  unfold guac_terminal_typescript_free. simpl. rewrite write_complete.
  pose proof (flush_contents now' t) as Hflush.
  destruct (guac_terminal_typescript_flush_length MAX_DELAY
              guac_common_write now' t) as [Hflen _].
  unfold pending at 1 in Hflush. rewrite Hflen in Hflush. simpl in Hflush.
  rewrite app_nil_r in Hflush.
  rewrite Hflush, Hc, Hpend, Hdata, <- !app_assoc. simpl.
  do 3 f_equal. apply firstn_all2. lia.
Qed.

(** What one flush adds to the two files. *)
Lemma flush_timing now typescript :
  invariant typescript →
  ∃ flushes,
    contents (timing_fd (flush now typescript))
    = contents (timing_fd typescript) ++ timing_bytes flushes
    ∧ contents (data_fd (flush now typescript))
      = contents (data_fd typescript) ++ concat flushes.*2
    ∧ flushes_valid sizeof_buffer MAX_DELAY flushes.
Proof.
  intros [Hlen Hbuf]. destruct (decide (length typescript = 0)) as [H0|H0].
  - exists []. rewrite guac_terminal_typescript_flush_empty by done.
    simpl. rewrite !app_nil_r. repeat split. constructor.
  - destruct (guac_terminal_typescript_flush_files now typescript H0)
      as [-> ->].
    exists [(elapsed MAX_DELAY now (last_flush typescript),
             pending typescript)].
    assert (Z.of_nat (Datatypes.length (pending typescript))
            = length typescript) as Hpend
      by (unfold pending; rewrite length_take; lia).
    rewrite !write_complete. simpl. rewrite Hpend, !app_nil_r.
    split.
    { by destruct (timing_entry (elapsed MAX_DELAY now (last_flush typescript))
                     (length typescript)). }
    split; [done|].
    constructor; [|constructor]. simpl. split.
    + intros Hnil. rewrite Hnil in Hpend. simpl in Hpend. lia.
    + split; [|lia]. unfold elapsed. case_decide; lia.
Qed.

Lemma timing_bytes_app f1 f2 :
  timing_bytes (f1 ++ f2) = timing_bytes f1 ++ timing_bytes f2.
Proof.
  induction f1 as [|[e chunk] f1 IH]; simpl; [done|].
  destruct (timing_entry e (Z.of_nat (Datatypes.length chunk))).
  by rewrite IH, app_assoc.
Qed.

(** What a run adds to the two files, flush by flush. *)
Lemma run_timing ops : ∀ typescript,
  invariant typescript →
  ∃ typescript' flushes,
    run' ops typescript = Some typescript'
    ∧ contents (timing_fd typescript')
      = contents (timing_fd typescript) ++ timing_bytes flushes
    ∧ contents (data_fd typescript')
      = contents (data_fd typescript) ++ concat flushes.*2
    ∧ flushes_valid sizeof_buffer MAX_DELAY flushes.
Proof.
  induction ops as [|[now [c|]] ops IH]; intros typescript Hinv; simpl.
  - exists typescript, []. simpl. rewrite !app_nil_r.
    repeat split. constructor.
  - destruct (write_defined now typescript c Hinv) as (t & Hw & Hinvt).
    rewrite Hw. simpl.
    destruct (IH t Hinvt) as (typescript' & fl & Hrun & Ht & Hd & Hv).
    assert (∃ fl0,
              contents (timing_fd t)
              = contents (timing_fd typescript) ++ timing_bytes fl0
              ∧ contents (data_fd t)
                = contents (data_fd typescript) ++ concat fl0.*2
              ∧ flushes_valid sizeof_buffer MAX_DELAY fl0) as (fl0 & Ht0 & Hd0 & Hv0).
    { unfold guac_terminal_typescript_write in Hw.
      destruct (decide (length typescript = sizeof_buffer)).
      - destruct (flush_timing now typescript Hinv) as (fl0 & ? & ? & ?).
        case_decide; [|done]. injection Hw as <-. simpl. eauto.
      - case_decide; [|done]. injection Hw as <-. simpl.
        exists []. simpl. rewrite !app_nil_r. repeat split. constructor. }
    exists typescript', (fl0 ++ fl). split; [done|].
    rewrite Ht, Hd, Ht0, Hd0, timing_bytes_app, fmap_app, concat_app,
      <- !app_assoc.
    repeat split. by apply Forall_app.
  - destruct (flush_timing now typescript Hinv) as (fl0 & Ht0 & Hd0 & Hv0).
    destruct (IH (flush now typescript) (flush_invariant _ _ Hinv))
      as (typescript' & fl & Hrun & Ht & Hd & Hv).
    exists typescript', (fl0 ++ fl). split; [done|].
    rewrite Ht, Hd, Ht0, Hd0, timing_bytes_app, fmap_app, concat_app,
      <- !app_assoc.
    repeat split. by apply Forall_app.
Qed.

(** The buffer after a run of writes alone: the writes fill it, and the
    write that finds it full starts it again at one byte. *)
Lemma run_writes_length ops : ∀ typescript,
  invariant typescript →
  Forall (λ op, op.2 ≠ Flush) ops →
  ∃ typescript',
    run' ops typescript = Some typescript'
    ∧ length typescript'
      = (let n := length typescript + Z.of_nat (Datatypes.length ops) in
         if decide (n = 0) then 0 else (n - 1) mod sizeof_buffer + 1).
Proof.
  induction ops as [|[now [c|]] ops IH]; intros typescript Hinv Hops.
  - exists typescript. split; [done|]. destruct Hinv as [Hlen _].
    cbn [Datatypes.length]. rewrite Z.add_0_r. cbv zeta.
    case_decide; [done|]. rewrite Z.mod_small; lia.
  - apply Forall_cons in Hops as [_ Hops]. cbn [run].
    destruct (write_defined now typescript c Hinv) as (t & Hw & Hinvt).
    rewrite Hw. cbn [mbind option_bind].
    destruct (IH t Hinvt Hops) as (typescript' & Hrun & Hlen').
    exists typescript'. split; [done|]. rewrite Hlen'.
    assert (length t = if decide (length typescript = sizeof_buffer)
                       then 1 else length typescript + 1) as Ht.
    { unfold guac_terminal_typescript_write in Hw.
      destruct (guac_terminal_typescript_flush_length MAX_DELAY
                  guac_common_write now typescript) as [Hflen _].
      destruct Hinv as [Hlen _].
      destruct (decide (length typescript = sizeof_buffer));
        (case_decide; [|done]); injection Hw as <-; simpl;
        unfold add; rewrite ?Hflen; apply to_int_id;
        unfold in_int, INT_MIN; lia. }
    destruct Hinv as [Hlen _]. cbn [Datatypes.length]. cbv zeta.
    rewrite Ht, Nat2Z.inj_succ.
    destruct (decide (length typescript = sizeof_buffer)) as [Hfull|Hfull].
    + repeat case_decide; try lia.
      replace (length typescript + Z.succ (Z.of_nat (Datatypes.length ops)) - 1)
        with (1 + Z.of_nat (Datatypes.length ops) - 1 + 1 * sizeof_buffer)
        by lia.
      by rewrite Z_mod_plus_full.
    + repeat case_decide; try lia. do 2 f_equal. lia.
  - apply Forall_cons in Hops as [Hne _]. done.
Qed.

(** X3: The timing file accounts for the data file.  At every point
    after an allocation, the timing file holds what it held and one entry
    per flush that had bytes, each entry the one for the number of bytes
    that flush moved and for an elapsed time of at most the maximum delay;
    the data file holds what it held, the header and the bytes of these
    flushes in the same order; and the bytes written are those of the
    flushes and the pending ones. *)
Theorem guac_terminal_typescript_timing_accounts
    create_path mkdir_failed data_file timing_file fresh now allocated ops :
  Z.of_nat (Datatypes.length fresh) = sizeof_buffer →
  guac_terminal_typescript_alloc HEADER guac_common_write
    create_path mkdir_failed (Some data_file) (Some timing_file) fresh now
  = Some allocated →
  ∃ typescript' flushes,
    run sizeof_buffer MAX_DELAY guac_common_write ops allocated
    = Some typescript'
    ∧ contents (timing_fd typescript')
      = contents timing_file ++ timing_bytes flushes
    ∧ contents (data_fd typescript')
      = contents data_file ++ String.list_ascii_of_string HEADER
        ++ concat flushes.*2
    ∧ written ops = concat flushes.*2 ++ pending typescript'
    ∧ flushes_valid sizeof_buffer MAX_DELAY flushes.
Proof.
  intros Hfresh Halloc.
  destruct (guac_terminal_typescript_alloc_contents _ _ _ _ _ _ _
              Hfresh Halloc) as (Hinv & Hpend & Hdata).
  assert (timing_fd allocated = timing_file) as Htiming.
  { unfold guac_terminal_typescript_alloc in Halloc.
    destruct (create_path && mkdir_failed); [done|].
    by injection Halloc as <-. }
  destruct (run_timing ops allocated Hinv)
    as (t & fl & Hrun & Ht & Hd & Hvalid).
  destruct (run_contents ops allocated Hinv) as (t' & Hrun' & _ & Hc).
  rewrite Hrun in Hrun'. injection Hrun' as <-.
  exists t, fl. split; [done|]. rewrite Htiming in Ht. split; [done|].
  rewrite Hpend, Hd, Hdata in Hc. simpl in Hc.
  rewrite <- !app_assoc in Hc. do 2 apply app_inv_head in Hc.
  split; [by rewrite Hd, Hdata, <- app_assoc|]. done.
Qed.

(** X4: Flushing is lazy.  After [n] writes and no explicit flush on a fresh
    typescript, the buffer holds [(n - 1) mod sizeof(buffer) + 1] bytes
    (none for no write): a full buffer stays in memory until the next
    write.  The data file holds the header and the bytes written before
    these. *)
Theorem guac_terminal_typescript_flush_is_lazy
    create_path mkdir_failed data_file timing_file fresh now allocated ops :
  Z.of_nat (Datatypes.length fresh) = sizeof_buffer →
  guac_terminal_typescript_alloc HEADER guac_common_write
    create_path mkdir_failed (Some data_file) timing_file fresh now
  = Some allocated →
  Forall (λ op, op.2 ≠ Flush) ops →
  ∃ typescript' flushed,
    run sizeof_buffer MAX_DELAY guac_common_write ops allocated
    = Some typescript'
    ∧ length typescript'
      = (let n := Z.of_nat (Datatypes.length ops) in
         if decide (n = 0) then 0 else (n - 1) mod sizeof_buffer + 1)
    ∧ written ops = flushed ++ pending typescript'
    ∧ Z.of_nat (Datatypes.length (pending typescript')) = length typescript'
    ∧ contents (data_fd typescript')
      = contents data_file ++ String.list_ascii_of_string HEADER ++ flushed.
Proof.
  intros Hfresh Halloc Hops.
  destruct (guac_terminal_typescript_alloc_contents _ _ _ _ _ _ _
              Hfresh Halloc) as (Hinv & Hpend & Hdata).
  destruct (run_writes_length ops allocated Hinv Hops)
    as (t & Hrun & Hlen).
  destruct (run_contents ops allocated Hinv) as (t' & Hrun' & Hinv' & Hc).
  rewrite Hrun in Hrun'. injection Hrun' as <-.
  destruct (run_timing ops allocated Hinv) as (t' & fl & Hrun' & _ & Hd & _).
  rewrite Hrun in Hrun'. injection Hrun' as <-.
  exists t, (concat fl.*2). split; [done|].
  assert (length allocated = 0) as Hlen0.
  { unfold guac_terminal_typescript_alloc in Halloc.
    destruct (create_path && mkdir_failed); [done|].
    destruct timing_file; [|done]. by injection Halloc as <-. }
  rewrite Hlen0 in Hlen. split; [exact Hlen|].
  rewrite Hpend, Hd, Hdata in Hc. simpl in Hc.
  rewrite <- !app_assoc in Hc. do 2 apply app_inv_head in Hc.
  split; [done|]. split.
  - destruct Hinv' as [? ?]. unfold pending. rewrite length_take. lia.
  - by rewrite Hd, Hdata, <- app_assoc.
Qed.

End TypescriptBytes.


Section TypescriptBytesExamples.

Import CInt Typescript Examples.

Lemma write_all_complete (fd buf : list ascii) (count : Z) :
  id (write_all fd buf count) = id fd ++ take (Z.to_nat count) buf.
Proof. reflexivity. Qed.

Lemma buffer_size_4 : 1 ≤ 4 ≤ INT_MAX.
Proof. unfold INT_MAX. lia. Qed.

Lemma guac_terminal_typescript_bytes_conserved_witness :
  alloc4 (Some []) = Some allocated4
  ∧ ∃ typescript',
      run 4 86400000 write_all hello_ops allocated4 = Some typescript'
      ∧ data_fd typescript' ++ pending typescript'
        = String.list_ascii_of_string "[BEGIN]hello!?".
Proof.
  split; [reflexivity|].
  apply (guac_terminal_typescript_bytes_conserved 4 86400000 "[BEGIN]"
           write_all id write_all_complete buffer_size_4
           false false [] (Some []) fresh4 1000 allocated4 hello_ops);
    reflexivity.
Defined.

Lemma guac_terminal_typescript_free_completes_witness :
  alloc4 (Some []) = Some allocated4
  ∧ ∃ typescript',
      run 4 86400000 write_all hello_ops allocated4 = Some typescript'
      ∧ (guac_terminal_typescript_free 86400000 "[END]" write_all
           2000 typescript').1
        = String.list_ascii_of_string "[BEGIN]hello!?[END]".
Proof.
  split; [reflexivity|].
  apply (guac_terminal_typescript_free_completes 4 86400000 "[BEGIN]"
           "[END]" write_all id write_all_complete buffer_size_4
           false false [] (Some []) fresh4 1000 allocated4 hello_ops 2000);
    reflexivity.
Defined.

Lemma guac_terminal_typescript_timing_accounts_witness :
  alloc4 (Some []) = Some allocated4
  ∧ ∃ typescript' flushes,
      run 4 86400000 write_all hello_ops allocated4 = Some typescript'
      ∧ timing_fd typescript' = [] ++ timing_bytes flushes
      ∧ data_fd typescript'
        = [] ++ String.list_ascii_of_string "[BEGIN]" ++ concat flushes.*2
      ∧ written hello_ops = concat flushes.*2 ++ pending typescript'
      ∧ flushes_valid 4 86400000 flushes.
Proof.
  split; [reflexivity|].
  exact (guac_terminal_typescript_timing_accounts 4 86400000 "[BEGIN]"
           write_all id write_all_complete buffer_size_4
           false false [] [] fresh4 1000 allocated4 hello_ops
           eq_refl eq_refl).
Defined.

(** The run of the seven writes and the flush: the flush at 1300 moves two
    bytes 300 ms after the allocation, the write at 1800 finds the buffer
    full and moves four bytes 500 ms later; the last byte is pending. *)
Example hello_run :
  run 4 86400000 write_all hello_ops allocated4
  = Some {| buffer := ["?"; "l"; "o"; "!"]%char; length := 1;
            data_fd := String.list_ascii_of_string "[BEGIN]hello!";
            timing_fd :=
              timing_bytes [(300, ["h"; "e"]%char);
                            (500, ["l"; "l"; "o"; "!"]%char)];
            last_flush := 1800 |}.
Proof. vm_compute. reflexivity. Qed.

Lemma guac_terminal_typescript_flush_is_lazy_witness :
  alloc4 (Some []) = Some allocated4
  ∧ Forall (λ op, op.2 ≠ Flush) abcdef_ops
  ∧ ∃ typescript' flushed,
      run 4 86400000 write_all abcdef_ops allocated4 = Some typescript'
      ∧ length typescript' = (6 - 1) mod 4 + 1
      ∧ written abcdef_ops = flushed ++ pending typescript'
      ∧ Z.of_nat (Datatypes.length (pending typescript'))
        = length typescript'
      ∧ data_fd typescript'
        = [] ++ String.list_ascii_of_string "[BEGIN]" ++ flushed.
Proof.
  assert (Forall (λ op : Z * operation, op.2 ≠ Flush) abcdef_ops) as Hops
    by (repeat constructor; discriminate).
  split; [reflexivity|]. split; [exact Hops|].
  exact (guac_terminal_typescript_flush_is_lazy 4 86400000 "[BEGIN]"
           write_all id write_all_complete buffer_size_4
           false false [] (Some []) fresh4 1000 allocated4 abcdef_ops
           eq_refl eq_refl Hops).
Defined.

End TypescriptBytesExamples.


(** ** The data file of a typescript *)

Section DataFileFacts.

Import CInt CString Typescript.

Variables MAX_SUFFIX_LENGTH MAX_SUFFIX : Z.

Local Abbreviation open_data_file :=
  (guac_terminal_typescript_open_data_file MAX_SUFFIX_LENGTH MAX_SUFFIX).
Local Abbreviation bytes := String.list_ascii_of_string.

Implicit Types (fs : filesystem) (buf : list ascii) (r : open_result).

Lemma string_of_list_ascii_app (l1 l2 : list ascii) :
  String.string_of_list_ascii (l1 ++ l2)
  = String.string_of_list_ascii l1 +:+ String.string_of_list_ascii l2.
Proof. induction l1 as [|c l1 IH]; simpl; [done|]. by rewrite IH. Qed.

Lemma list_ascii_of_string_app (s1 s2 : string) :
  bytes (s1 +:+ s2) = bytes s1 ++ bytes s2.
Proof. induction s1 as [|c s1 IH]; simpl; [done|]. by rewrite IH. Qed.

Lemma length_list_ascii_of_string (s : string) :
  Datatypes.length (bytes s) = String.length s.
Proof. induction s as [|c s IH]; simpl; [done|]. by rewrite IH. Qed.

Lemma c_str_no_NUL (s : string) : NUL ∉ bytes (c_str s).
Proof.
  induction s as [|c s IH]; simpl; [apply not_elem_of_nil|].
  destruct (decide (c = NUL)); simpl; [apply not_elem_of_nil|].
  apply not_elem_of_cons. split; [congruence|done].
Qed.

Lemma decimal_no_NUL (z : Z) : NUL ∉ bytes (decimal z).
Proof.
  assert (∀ d, NUL ∉ bytes (NilEmpty.string_of_uint d)) as Huint.
  { induction d; simpl; try apply not_elem_of_nil;
      (apply not_elem_of_cons; split; [discriminate|done]). }
  assert (∀ d, NUL ∉ bytes (NilZero.string_of_uint d)) as Hzero.
  { intros d. destruct d; try apply Huint.
    simpl. apply not_elem_of_cons. split; [discriminate|].
    apply not_elem_of_nil. }
  unfold decimal. destruct (Z.to_int z); simpl; [apply Hzero|].
  apply not_elem_of_cons. split; [discriminate|apply Hzero].
Qed.

(** The name that [open] reads from a buffer holding bytes without a NUL
    and a NUL behind them. *)
Lemma load_string_app (l rest : list ascii) :
  NUL ∉ l →
  load_string (l ++ NUL :: rest) = Some (String.string_of_list_ascii l).
Proof.
  induction l as [|c l IH]; simpl; intros Hl.
  - by destruct (decide (NUL = NUL)).
  - apply not_elem_of_cons in Hl as [Hc Hl].
    destruct (decide (c = NUL)); [congruence|]. by rewrite IH.
Qed.

(** The text of the base name, and the candidates in bytes. *)
Lemma base_no_NUL path name : NUL ∉ bytes (c_str path +:+ "/" +:+ c_str name).
Proof.
  rewrite !list_ascii_of_string_app. rewrite !not_elem_of_app.
  split; [apply c_str_no_NUL|]. split; [|apply c_str_no_NUL].
  simpl. apply not_elem_of_cons. split; [discriminate|apply not_elem_of_nil].
Qed.

Lemma candidate_bytes path name i :
  i ≠ 0 →
  String.string_of_list_ascii
    (bytes (c_str path +:+ "/" +:+ c_str name) ++ ["."%char]
     ++ bytes (decimal i))
  = candidate path name i.
Proof.
  intros Hi. unfold candidate. destruct (decide (i = 0)); [done|].
  rewrite !string_of_list_ascii_app, !String.string_of_list_ascii_of_string.
  done.
Qed.

(** An [open] that does not fail with EEXIST is not tried again. *)
Lemma retry_suffixes_done n i suffix fs buf r :
  r ≠ OpenFailed EEXIST →
  retry_suffixes n i suffix fs buf r = Some (fs, buf, r).
Proof. destruct n, r as [|[]]; done. Qed.

Lemma open_excl_existing fs pathname :
  pathname ∈ existing fs → open_excl fs pathname = (fs, OpenFailed EEXIST).
Proof. intros Hin. unfold open_excl. by destruct (decide _). Qed.

Lemma open_excl_fresh fs pathname :
  pathname ∉ existing fs → (open_excl fs pathname).2 ≠ OpenFailed EEXIST.
Proof.
  intros Hin. unfold open_excl. destruct (decide _); [done|].
  by destruct (refused fs pathname).
Qed.

(** One turn of the loop: the suffix is stored within the buffer, and the
    name read back is the candidate of the suffix. *)
Lemma store_suffix path name basename_size buf i :
  suffix_buffer MAX_SUFFIX_LENGTH path name basename_size buf →
  i ≠ 0 →
  Z.of_nat (String.length (decimal i)) < MAX_SUFFIX_LENGTH →
  ∃ buf',
    store_bytes
      (Z.of_nat (Datatypes.length
                   (bytes (c_str path +:+ "/" +:+ c_str name))) + 1)
      (bytes (decimal i) ++ [NUL]) buf = Some buf'
    ∧ suffix_buffer MAX_SUFFIX_LENGTH path name basename_size buf'
    ∧ load_string buf' = Some (candidate path name i).
Proof.
  intros (Htake & Hlen & Hroom) Hi Hdec.
  set (text := bytes (c_str path +:+ "/" +:+ c_str name)) in *.
  pose proof (length_list_ascii_of_string (decimal i)) as Hdl.
  unfold store_bytes. rewrite length_app. simpl.
  case_decide as Hb; [|lia].
  replace (Z.to_nat (Z.of_nat (Datatypes.length text) + 1))
    with (S (Datatypes.length text)) by lia.
  eexists. split; [reflexivity|]. split.
  - unfold suffix_buffer. fold text. rewrite Htake. split.
    + rewrite take_app_length'; [done|]. rewrite length_app. simpl. lia.
    + split; [|done].
      rewrite !length_app, length_drop. simpl. lia.
  - rewrite Htake.
    match goal with
    | |- load_string (_ ++ _ ++ ?rest) = _ =>
        assert ((text ++ ["."%char]) ++ (bytes (decimal i) ++ [NUL]) ++ rest
                = (text ++ ["."%char] ++ bytes (decimal i)) ++ NUL :: rest)
          as -> by (by rewrite <- !app_assoc)
    end.
    rewrite load_string_app.
    + by rewrite <- candidate_bytes by done.
    + rewrite !not_elem_of_app. split; [apply base_no_NUL|].
      split; [|apply decimal_no_NUL].
      apply not_elem_of_cons. split; [discriminate|apply not_elem_of_nil].
Qed.

(** The loop finds the first candidate that does not exist. *)
Lemma retry_suffixes_first path name basename_size n : ∀ i fs buf k,
  suffix_buffer MAX_SUFFIX_LENGTH path name basename_size buf →
  1 ≤ i →
  (∀ j, i ≤ j < i + Z.of_nat n →
        Z.of_nat (String.length (decimal j)) < MAX_SUFFIX_LENGTH) →
  i ≤ k < i + Z.of_nat n →
  (∀ j, i ≤ j < k → candidate path name j ∈ existing fs) →
  candidate path name k ∉ existing fs →
  ∃ buf',
    retry_suffixes n i
      (Z.of_nat (Datatypes.length
                   (bytes (c_str path +:+ "/" +:+ c_str name))) + 1)
      fs buf (OpenFailed EEXIST)
    = Some ((open_excl fs (candidate path name k)).1, buf',
            (open_excl fs (candidate path name k)).2).
Proof.
  induction n as [|n IH]; intros i fs buf k Hbuf Hi Hdec Hk Hex Hfree;
    [lia|].
  cbn [retry_suffixes].
  destruct (store_suffix path name basename_size buf i Hbuf)
    as (buf' & Hstore & Hbuf' & Hload); [lia|apply Hdec; lia|].
  rewrite Hstore. cbn [mbind option_bind option_ret mret].
  rewrite Hload. cbn [mbind option_bind option_ret mret].
  destruct (decide (i = k)) as [->|Hne].
  - destruct (open_excl fs (candidate path name k)) as [fs' r] eqn:Hopen.
    exists buf'. apply retry_suffixes_done.
    pose proof (open_excl_fresh fs _ Hfree) as Hr. by rewrite Hopen in Hr.
  - rewrite open_excl_existing by (apply Hex; lia).
    apply (IH (i + 1) fs buf' k); try done; try lia.
    + intros j Hj. apply Hdec. lia.
    + intros j Hj. apply Hex. lia.
Qed.

(** The loop gives up after the last suffix when every candidate exists. *)
Lemma retry_suffixes_exhausted path name basename_size n : ∀ i fs buf,
  suffix_buffer MAX_SUFFIX_LENGTH path name basename_size buf →
  1 ≤ i →
  (∀ j, i ≤ j < i + Z.of_nat n →
        Z.of_nat (String.length (decimal j)) < MAX_SUFFIX_LENGTH) →
  (∀ j, i ≤ j < i + Z.of_nat n → candidate path name j ∈ existing fs) →
  ∃ buf',
    retry_suffixes n i
      (Z.of_nat (Datatypes.length
                   (bytes (c_str path +:+ "/" +:+ c_str name))) + 1)
      fs buf (OpenFailed EEXIST)
    = Some (fs, buf', OpenFailed EEXIST).
Proof.
  induction n as [|n IH]; intros i fs buf Hbuf Hi Hdec Hex; [by exists buf|].
  cbn [retry_suffixes].
  destruct (store_suffix path name basename_size buf i Hbuf)
    as (buf' & Hstore & Hbuf' & Hload); [lia|apply Hdec; lia|].
  rewrite Hstore. cbn [mbind option_bind option_ret mret].
  rewrite Hload. cbn [mbind option_bind option_ret mret].
  rewrite open_excl_existing by (apply Hex; lia).
  apply (IH (i + 1) fs buf'); try done; try lia.
  - intros j Hj. apply Hdec. lia.
  - intros j Hj. apply Hex. lia.
Qed.

(** The start of the function for a name that fits: the base name is in
    the buffer and is the first name opened. *)
Lemma store_base path name basename_size buf :
  Z.of_nat (Datatypes.length buf) = basename_size →
  Z.of_nat (Datatypes.length (bytes (c_str path +:+ "/" +:+ c_str name)))
  < basename_size - MAX_SUFFIX_LENGTH →
  0 ≤ MAX_SUFFIX_LENGTH →
  ∃ buf1 buf2,
    store_bytes 0
      (snprintf_stored (basename_size - MAX_SUFFIX_LENGTH)
         (bytes (c_str path +:+ "/" +:+ c_str name))) buf = Some buf1
    ∧ load_string buf1 = Some (candidate path name 0)
    ∧ store_bytes
        (Z.of_nat (Datatypes.length
                     (bytes (c_str path +:+ "/" +:+ c_str name))))
        ["."%char] buf1 = Some buf2
    ∧ suffix_buffer MAX_SUFFIX_LENGTH path name basename_size buf2.
Proof.
  intros Hlen Hfits Hmsl.
  set (text := bytes (c_str path +:+ "/" +:+ c_str name)) in *.
  assert (snprintf_stored (basename_size - MAX_SUFFIX_LENGTH) text
          = text ++ [NUL]) as ->.
  { unfold snprintf_stored. repeat case_decide; try lia.
    rewrite firstn_all2; [done|lia]. }
  unfold store_bytes at 1. rewrite length_app. simpl.
  case_decide; [|lia]. eexists. eexists. split; [reflexivity|].
  rewrite <- app_assoc. simpl. split.
  { rewrite load_string_app by apply base_no_NUL.
    unfold candidate. destruct (decide (0 = 0)); [|done]. subst text.
    by rewrite String.string_of_list_ascii_of_string. }
  unfold store_bytes. rewrite length_app. simpl. rewrite length_drop.
  case_decide; [|lia]. split; [reflexivity|].
  rewrite Nat2Z.id, take_app_length. unfold suffix_buffer. fold text.
  split; [|split].
  - rewrite cons_middle, app_assoc.
    rewrite take_app_length'; [done|]. rewrite length_app. simpl. lia.
  - repeat (rewrite ?length_app, ?length_drop; simpl). lia.
  - lia.
Qed.

(** X5: A name that fits is opened under the first candidate that does not
    exist.  For a buffer of [basename_size] bytes, a path and a name whose
    text is shorter than [basename_size] minus the suffix length, and
    suffixes up to the maximum that fit the suffix length: when the
    candidates before the [k]-th one exist and the [k]-th does not, the
    function returns what [open] returns for the [k]-th candidate, the
    descriptor of the new file or the error that is not EEXIST, and has
    created no other file. *)
Theorem guac_terminal_typescript_open_data_file_first_free
    fs path name buf basename_size k :
  Z.of_nat (Datatypes.length buf) = basename_size →
  0 ≤ MAX_SUFFIX_LENGTH →
  Z.of_nat (Datatypes.length (bytes (c_str path +:+ "/" +:+ c_str name)))
  < basename_size - MAX_SUFFIX_LENGTH →
  (∀ i, 1 ≤ i ≤ MAX_SUFFIX →
        Z.of_nat (String.length (decimal i)) < MAX_SUFFIX_LENGTH) →
  0 ≤ k ≤ MAX_SUFFIX →
  (∀ j, 0 ≤ j < k → candidate path name j ∈ existing fs) →
  candidate path name k ∉ existing fs →
  ∃ buf',
    guac_terminal_typescript_open_data_file MAX_SUFFIX_LENGTH MAX_SUFFIX
      fs path name buf basename_size
    = Some ((open_excl fs (candidate path name k)).1, buf',
            (open_excl fs (candidate path name k)).2)
    ∧ (refused fs (candidate path name k) = None →
       (open_excl fs (candidate path name k)).2
       = Opened (candidate path name k)).
Proof.
  intros Hlen Hmsl Hfits Hdec Hk Hex Hfree.
  destruct (store_base path name basename_size buf Hlen Hfits Hmsl)
    as (buf1 & buf2 & Hs1 & Hl1 & Hs2 & Hbuf2).
  unfold guac_terminal_typescript_open_data_file.
  rewrite Hs1. cbn [mbind option_bind].
  case_decide; [lia|]. rewrite Hl1. cbn [mbind option_bind].
  assert (∃ buf',
            ('(fs', data_fd) ← Some (open_excl fs (candidate path name 0));
             basename ← store_bytes
               (Z.of_nat (Datatypes.length
                  (bytes (c_str path +:+ "/" +:+ c_str name))))
               ["."%char] buf1;
             retry_suffixes (Z.to_nat MAX_SUFFIX) 1
               (Z.of_nat (Datatypes.length
                  (bytes (c_str path +:+ "/" +:+ c_str name))) + 1)
               fs' basename data_fd)
            = Some ((open_excl fs (candidate path name k)).1, buf',
                    (open_excl fs (candidate path name k)).2))
    as (buf' & Hres).
  { cbn [mbind option_bind]. destruct (decide (k = 0)) as [->|Hk0].
    - destruct (open_excl fs (candidate path name 0)) as [fs' r] eqn:Hopen.
      rewrite Hs2. cbn [mbind option_bind]. exists buf2.
      apply retry_suffixes_done.
      pose proof (open_excl_fresh fs _ Hfree) as Hr. by rewrite Hopen in Hr.
    - rewrite open_excl_existing by (apply Hex; lia).
      rewrite Hs2. cbn [mbind option_bind].
      apply (retry_suffixes_first path name basename_size); try done; try lia.
      + intros j Hj. apply Hdec. lia.
      + intros j Hj. apply Hex. lia. }
  exists buf'. split.
  - destruct (open_excl fs (candidate path name 0)) as [fs' r].
    exact Hres.
  - intros Hnone. unfold open_excl. destruct (decide _); [done|].
    by rewrite Hnone.
Qed.

(** X6: When the base name and all its suffixed names up to the maximum
    suffix exist, the function has tried them all, returns the failure
    EEXIST of the last one and has created nothing. *)
Theorem guac_terminal_typescript_open_data_file_exhausted
    fs path name buf basename_size :
  Z.of_nat (Datatypes.length buf) = basename_size →
  0 ≤ MAX_SUFFIX_LENGTH →
  Z.of_nat (Datatypes.length (bytes (c_str path +:+ "/" +:+ c_str name)))
  < basename_size - MAX_SUFFIX_LENGTH →
  (∀ i, 1 ≤ i ≤ MAX_SUFFIX →
        Z.of_nat (String.length (decimal i)) < MAX_SUFFIX_LENGTH) →
  (∀ j, 0 ≤ j ≤ MAX_SUFFIX → candidate path name j ∈ existing fs) →
  0 ≤ MAX_SUFFIX →
  ∃ buf',
    guac_terminal_typescript_open_data_file MAX_SUFFIX_LENGTH MAX_SUFFIX
      fs path name buf basename_size
    = Some (fs, buf', OpenFailed EEXIST).
Proof.
  intros Hlen Hmsl Hfits Hdec Hex Hmax.
  destruct (store_base path name basename_size buf Hlen Hfits Hmsl)
    as (buf1 & buf2 & Hs1 & Hl1 & Hs2 & Hbuf2).
  unfold guac_terminal_typescript_open_data_file.
  rewrite Hs1. cbn [mbind option_bind].
  case_decide; [lia|]. rewrite Hl1. cbn [mbind option_bind].
  rewrite open_excl_existing by (apply Hex; lia).
  rewrite Hs2. cbn [mbind option_bind].
  apply (retry_suffixes_exhausted path name basename_size); try done.
  - intros j Hj. apply Hdec. lia.
  - intros j Hj. apply Hex. lia.
Qed.

Lemma open_excl_created fs pathname :
  created_by fs (open_excl fs pathname).1 (open_excl fs pathname).2.
Proof.
  unfold open_excl, created_by. destruct (decide _); [done|].
  destruct (refused fs pathname); done.
Qed.

Lemma retry_suffixes_created fs0 n : ∀ i suffix fs buf r fs' buf' r',
  created_by fs0 fs r →
  retry_suffixes n i suffix fs buf r = Some (fs', buf', r') →
  created_by fs0 fs' r'.
Proof.
  induction n as [|n IH]; intros i suffix fs buf r fs' buf' r' Hc.
  - destruct r as [|[]]; by intros [= <- <- <-].
  - destruct r as [p|[| |code]]; try by intros [= <- <- <-].
    cbn [retry_suffixes].
    destruct (store_bytes _ _ buf) as [buf1|]; [|done].
    cbn [mbind option_bind].
    destruct (load_string buf1) as [pathname|]; [|done].
    cbn [mbind option_bind].
    pose proof (open_excl_created fs pathname) as Hopen.
    destruct (open_excl fs pathname) as [fs1 r1]. simpl in Hopen.
    destruct Hc as [_ ->]. by apply IH.
Qed.

(** What a call that returns has done to the file system. *)
Lemma open_data_file_created_by fs path name buf basename_size fs' buf' r :
  guac_terminal_typescript_open_data_file MAX_SUFFIX_LENGTH MAX_SUFFIX
    fs path name buf basename_size = Some (fs', buf', r) →
  created_by fs fs' r.
Proof.
  unfold guac_terminal_typescript_open_data_file.
  destruct (store_bytes 0 _ buf) as [buf1|]; [|done].
  cbn [mbind option_bind].
  case_decide; [by intros [= <- <- <-]|].
  destruct (load_string buf1) as [pathname|]; [|done].
  cbn [mbind option_bind].
  pose proof (open_excl_created fs pathname) as Hopen.
  destruct (open_excl fs pathname) as [fs1 r1]. simpl in Hopen.
  destruct (store_bytes _ _ buf1) as [buf2|]; [|done].
  cbn [mbind option_bind]. intros Hretry.
  exact (retry_suffixes_created fs _ _ _ _ _ _ _ _ _ Hopen Hretry).
Qed.

(** X7: Whatever the path, the name and the files that exist: a call that
    returns a descriptor has created the file it opened, which did not
    exist before, and no other; a call that returns a failure has created
    nothing. *)
Theorem guac_terminal_typescript_open_data_file_creates
    fs path name buf basename_size fs' buf' r :
  guac_terminal_typescript_open_data_file MAX_SUFFIX_LENGTH MAX_SUFFIX
    fs path name buf basename_size = Some (fs', buf', r) →
  refused fs' = refused fs
  ∧ match r with
    | Opened pathname =>
        (pathname ∉ existing fs)
        ∧ existing fs' = {[pathname]} ∪ existing fs
    | OpenFailed _ => fs' = fs
    end.
Proof.
  intros Hopen.
  destruct (open_data_file_created_by _ _ _ _ _ _ _ _ Hopen) as [Href Hr].
  split; [exact Href|]. destruct r; exact Hr.
Qed.

(** X8: The length check refuses a text of exactly [basename_size] minus the
    suffix length, with ENAMETOOLONG and without a call of [open].  A
    longer text that is shorter than the buffer is not refused: the name
    opened is the text cut to the bytes that [snprintf] stored. *)
Theorem guac_terminal_typescript_open_data_file_length_check
    fs path name buf basename_size :
  let text := bytes (c_str path +:+ "/" +:+ c_str name) in
  let size := basename_size - MAX_SUFFIX_LENGTH in
  let cut := String.string_of_list_ascii (take (Z.to_nat (size - 1)) text) in
  Z.of_nat (Datatypes.length buf) = basename_size →
  0 ≤ MAX_SUFFIX_LENGTH →
  (Z.of_nat (Datatypes.length text) = size →
   ∃ buf',
     guac_terminal_typescript_open_data_file MAX_SUFFIX_LENGTH MAX_SUFFIX
       fs path name buf basename_size
     = Some (fs, buf', OpenFailed ENAMETOOLONG))
  ∧ (0 < size < Z.of_nat (Datatypes.length text) →
     Z.of_nat (Datatypes.length text) < basename_size →
     cut ∉ existing fs → refused fs cut = None →
     ∃ buf',
       guac_terminal_typescript_open_data_file MAX_SUFFIX_LENGTH MAX_SUFFIX
         fs path name buf basename_size
       = Some ({| existing := {[cut]} ∪ existing fs;
                  refused := refused fs |}, buf', Opened cut)).
Proof.
  intros text size cut Hlen Hmsl.
  assert (0 < Z.of_nat (Datatypes.length text)) as Hpos.
  { subst text. rewrite !list_ascii_of_string_app, !length_app. simpl. lia. }
  assert (0 < size ≤ Z.of_nat (Datatypes.length text) →
          ∃ rest,
            store_bytes 0 (snprintf_stored size text) buf
            = Some (take (Z.to_nat (size - 1)) text ++ NUL :: rest)
            ∧ Z.of_nat (Datatypes.length
                          (take (Z.to_nat (size - 1)) text ++ NUL :: rest))
              = basename_size) as Hstore.
  { intros Hsize. unfold snprintf_stored, store_bytes.
    repeat case_decide; try lia.
    - eexists. rewrite <- app_assoc. simpl. split; [reflexivity|].
      repeat (rewrite ?length_app, ?length_drop, ?length_take; simpl). lia.
    - repeat (rewrite ?length_app, ?length_take in *; simpl in * ). lia. }
  split.
  - intros Heq. destruct Hstore as (rest & Hs & _); [lia|].
    unfold guac_terminal_typescript_open_data_file. fold text size.
    rewrite Hs. cbn [mbind option_bind]. case_decide; [|lia]. eauto.
  - intros Hsize Hroom Hfree Hrefused.
    destruct Hstore as (rest & Hs & Hl); [lia|].
    unfold guac_terminal_typescript_open_data_file. fold text size.
    rewrite Hs. cbn [mbind option_bind]. case_decide; [lia|].
    rewrite load_string_app.
    2:{ intros Hin. apply elem_of_take in Hin as (j & Hj & _).
        apply (base_no_NUL path name). apply list_elem_of_lookup. eauto. }
    cbn [mbind option_bind]. fold cut.
    unfold open_excl. destruct (decide (cut ∈ existing fs)); [done|].
    rewrite Hrefused. unfold store_bytes. rewrite Hl.
    case_decide as Hb; [|simpl in Hb; lia]. cbn [mbind option_bind]. eexists.
    by apply retry_suffixes_done.
Qed.

(** What [mkdir] does to the names that exist: nothing, or it adds the one
    name it was given, which did not exist. *)
Lemma mkdir_existing fs pathname refused' :
  existing (mkdir fs pathname refused').1 = existing fs
  ∨ (pathname ∉ existing fs)
    ∧ existing (mkdir fs pathname refused').1 = {[pathname]} ∪ existing fs.
Proof.
  unfold mkdir. destruct (decide _); [by left|].
  destruct (refused fs pathname); [by left|]. by right.
Qed.

(** What the calls of an allocation have done to the file system, [made]
    being the file system when [mkdir] has returned. *)
Lemma alloc_open_cases
    fs path name create_path refused' buf basename_size fs' data timing :
  guac_terminal_typescript_alloc_open MAX_SUFFIX_LENGTH MAX_SUFFIX
    fs path name create_path refused' buf basename_size
  = Some (fs', data, timing) →
  let made :=
    if create_path then (mkdir fs (c_str path) refused').1 else fs in
  existing fs ⊆ existing made
  ∧ existing made ⊆ existing fs'
  ∧ (∀ t, timing = Some t →
          t = "/tmp/typescript-timing" ∧ t ∈ existing fs' ∧ is_Some data)
  ∧ ("/tmp/typescript-timing" ∈ existing made → timing = None)
  ∧ (timing = None →
     match data with
     | Some d => (d ∉ existing made) ∧ existing fs' = {[d]} ∪ existing made
     | None => fs' = made
     end).
Proof.
  intros Hopen made. unfold guac_terminal_typescript_alloc_open in Hopen.
  assert (existing fs ⊆ existing made) as Hmade.
  { subst made. destruct create_path; [|done].
    destruct (mkdir_existing fs (c_str path) refused') as [->|[_ ->]];
      set_solver +. }
  split; [done|]. clear Hmade.
  assert (∃ result,
            (if create_path then mkdir fs (c_str path) refused'
             else (fs, None)) = (made, result)) as [result Hmkdir].
  { subst made. destruct create_path; [|by eexists].
    destruct (mkdir fs (c_str path) refused'). by eexists. }
  rewrite Hmkdir in Hopen. clearbody made. clear Hmkdir.
  destruct (create_path && mkdir_fails result).
  { injection Hopen as <- <- <-. repeat split; done. }
  destruct (guac_terminal_typescript_open_data_file _ _ made path name buf
              basename_size) as [[[fs1 buf1] r]|] eqn:Hdata; [|done].
  cbn [mbind option_bind] in Hopen.
  apply open_data_file_created_by in Hdata as [_ Hr].
  destruct r as [d|e].
  - destruct Hr as [Hnew Hfs1].
    pose proof (open_excl_created fs1 "/tmp/typescript-timing") as Hc.
    destruct (open_excl fs1 "/tmp/typescript-timing") as [fs2 [t|e]] eqn:Ht;
      simpl in Hc; destruct Hc as [_ Hc]; injection Hopen as <- <- <-.
    + destruct Hc as [Hfresh Hfs2].
      assert (t = "/tmp/typescript-timing") as ->.
      { unfold open_excl in Ht. repeat case_match; congruence. }
      split; [rewrite Hfs2, Hfs1; set_solver +|].
      split; [|split; [|done]].
      * intros ? [= <-]. split; [done|].
        split; [rewrite Hfs2; set_solver +|eauto].
      * intros Hin. destruct Hfresh. rewrite Hfs1. set_solver +Hin.
    + subst fs2. split; [rewrite Hfs1; set_solver +|]. done.
  - injection Hopen as <- <- <-. simpl in Hr. subst fs1. done.
Qed.

(** While the timing file exists, no allocation opens a timing file, and
    the file is still there after any number of them. *)
Lemma alloc_open_all_timing basename_size calls : ∀ fs fs' opened,
  "/tmp/typescript-timing" ∈ existing fs →
  guac_terminal_typescript_alloc_open_all MAX_SUFFIX_LENGTH MAX_SUFFIX
    fs basename_size calls = Some (fs', opened) →
  "/tmp/typescript-timing" ∈ existing fs'
  ∧ Datatypes.length opened = Datatypes.length calls
  ∧ Forall (λ o, o.2 = None) opened.
Proof.
  induction calls as [|c calls IH]; intros fs fs' opened Hin; simpl.
  { intros [= <- <-]. by repeat split. }
  destruct (guac_terminal_typescript_alloc_open _ _ fs _ _ _ _ _ _)
    as [[[fs1 data] timing]|] eqn:Hcall; [|done].
  cbn [mbind option_bind].
  destruct (guac_terminal_typescript_alloc_open_all _ _ fs1 _ calls)
    as [[fs2 opened']|] eqn:Hcalls; [|done].
  cbn [mbind option_bind]. intros [= <- <-].
  apply alloc_open_cases in Hcall as (Hmade & Hfs1 & _ & Hnone & _).
  destruct (IH fs1 fs2 opened') as (Hin2 & Hlen & Hall);
    [set_solver +Hin Hmade Hfs1|done|].
  split; [done|]. split; [simpl; by rewrite Hlen|].
  constructor; [|done]. simpl. apply Hnone. set_solver +Hin Hmade.
Qed.

(** X13: One typescript at a time.  The timing file is opened under the
    fixed name /tmp/typescript-timing and must not exist: after an
    allocation that opened both of its files, each of any number of later
    allocations, for any paths and names, with or without a directory to
    make, opens no timing file and returns NULL, and the timing file is
    still there after the last. *)
Theorem guac_terminal_typescript_alloc_once
    fs path name create_path refused' buf basename_size fs1 data timing
    calls fs2 opened :
  guac_terminal_typescript_alloc_open MAX_SUFFIX_LENGTH MAX_SUFFIX
    fs path name create_path refused' buf basename_size
  = Some (fs1, Some data, Some timing) →
  guac_terminal_typescript_alloc_open_all MAX_SUFFIX_LENGTH MAX_SUFFIX
    fs1 basename_size calls
  = Some (fs2, opened) →
  ("/tmp/typescript-timing" ∈ existing fs2)
  ∧ Datatypes.length opened = Datatypes.length calls
  ∧ Forall
      (λ o,
         o.2 = None
         ∧ ∀ (file : Type) (descriptor : string → file) HEADER
             (guac_common_write : file → list ascii → Z → file)
             create_path' mkdir_failed fresh now,
             guac_terminal_typescript_alloc HEADER guac_common_write
               create_path' mkdir_failed
               (descriptor <$> o.1) (descriptor <$> o.2) fresh now
             = None)
      opened.
Proof.
  intros Hfirst Hlater.
  apply alloc_open_cases in Hfirst as (_ & _ & Htiming & _).
  destruct (Htiming timing eq_refl) as (-> & Hexists & _).
  destruct (alloc_open_all_timing _ _ _ _ _ Hexists Hlater)
    as (Hin & Hlen & Hall).
  split; [done|]. split; [done|].
  apply (Forall_impl _ _ _ Hall). intros [d t] Ht. simpl in *. subst t.
  split; [done|].
  intros file descriptor HEADER write create_path' mkdir_failed fresh now.
  unfold guac_terminal_typescript_alloc.
  destruct (create_path' && mkdir_failed); [done|]. by destruct d.
Qed.

(** X14: An allocation that opened its data file and could not open the
    timing file returns NULL and leaves behind what it made: the data
    file, which did not exist before and is closed, not removed, and the
    directory, where [mkdir] made it.  These are the only changes of the
    names that exist. *)
Theorem guac_terminal_typescript_alloc_leaves_data_file
    fs path name create_path refused' buf basename_size fs' data :
  guac_terminal_typescript_alloc_open MAX_SUFFIX_LENGTH MAX_SUFFIX
    fs path name create_path refused' buf basename_size
  = Some (fs', Some data, None) →
  let made :=
    if create_path then (mkdir fs (c_str path) refused').1 else fs in
  (data ∉ existing made)
  ∧ existing fs' = {[data]} ∪ existing made
  ∧ (existing made = existing fs
     ∨ create_path = true ∧ (c_str path ∉ existing fs)
       ∧ existing made = {[c_str path]} ∪ existing fs)
  ∧ ∀ (file : Type) (descriptor : string → file) HEADER
      (guac_common_write : file → list ascii → Z → file) fresh now,
      guac_terminal_typescript_alloc HEADER guac_common_write
        create_path (mkdir_fails (mkdir fs (c_str path) refused').2)
        (Some (descriptor data)) None fresh now
      = None.
Proof.
  intros Hopen made.
  destruct (alloc_open_cases _ _ _ _ _ _ _ _ _ _ Hopen)
    as (_ & _ & _ & _ & Hnone).
  destruct (Hnone eq_refl) as [Hnew Hfs]. fold made in Hnew, Hfs.
  split; [done|]. split; [done|]. split.
  - subst made. destruct create_path; [|by left].
    destruct (mkdir_existing fs (c_str path) refused') as [?|[? ?]];
      [by left|by right].
  - intros file descriptor HEADER write fresh now.
    unfold guac_terminal_typescript_alloc.
    by destruct (create_path && mkdir_fails _).
Qed.

End DataFileFacts.


Section DataFileExamples.

Import CInt CString Typescript Examples.

(** The suffixes up to 255 have at most three digits, those up to 3 have
    one. *)
Lemma suffixes_fit_255 i :
  1 ≤ i ≤ 255 → Z.of_nat (String.length (decimal i)) < 4.
Proof.
  intros Hi.
  assert (forallb (λ j, Z.of_nat (String.length (decimal j)) <? 4)
            (seqZ 1 255) = true) as Hall by (vm_compute; reflexivity).
  rewrite forallb_forall in Hall. apply Z.ltb_lt, Hall.
  apply list_elem_of_In, elem_of_seqZ. lia.
Qed.

Lemma suffixes_fit_3 i :
  1 ≤ i ≤ 3 → Z.of_nat (String.length (decimal i)) < 4.
Proof. intros Hi. apply suffixes_fit_255. lia. Qed.

Lemma guac_terminal_typescript_open_data_file_first_free_witness :
  (∀ j, 0 ≤ j < 2 → candidate "/tmp" "ts" j ∈ existing two_typescripts)
  ∧ (candidate "/tmp" "ts" 2 ∉ existing two_typescripts)
  ∧ ∃ buf',
      guac_terminal_typescript_open_data_file 4 255
        two_typescripts "/tmp" "ts" basename16 16
      = Some ((open_excl two_typescripts (candidate "/tmp" "ts" 2)).1, buf',
              (open_excl two_typescripts (candidate "/tmp" "ts" 2)).2)
      ∧ (refused two_typescripts (candidate "/tmp" "ts" 2) = None →
         (open_excl two_typescripts (candidate "/tmp" "ts" 2)).2
         = Opened (candidate "/tmp" "ts" 2)).
Proof.
  assert (∀ j, 0 ≤ j < 2 →
               candidate "/tmp" "ts" j ∈ existing two_typescripts) as Hex.
  { intros j Hj. assert (j = 0 ∨ j = 1) as [-> | ->] by lia;
      vm_compute; set_solver. }
  assert (candidate "/tmp" "ts" 2 ∉ existing two_typescripts) as Hfree.
  { vm_compute. set_solver. }
  split; [exact Hex|]. split; [exact Hfree|].
  apply (guac_terminal_typescript_open_data_file_first_free 4 255
           two_typescripts "/tmp" "ts" basename16 16 2);
    [reflexivity|lia|vm_compute; reflexivity|exact suffixes_fit_255|lia
    |exact Hex|exact Hfree].
Defined.

(** The call of the lemma above: /tmp/ts.2 is created and returned. *)
Example open_data_file_ts_2 :
  (λ r, (r.1.1, r.2)) <$>
    guac_terminal_typescript_open_data_file 4 255
      two_typescripts "/tmp" "ts" basename16 16
  = Some ({| existing := {["/tmp/ts.2"]} ∪ existing two_typescripts;
             refused := refused two_typescripts |},
          Opened "/tmp/ts.2").
Proof. reflexivity. Qed.

Lemma guac_terminal_typescript_open_data_file_exhausted_witness :
  (∀ j, 0 ≤ j ≤ 3 → candidate "/tmp" "ts" j ∈ existing four_typescripts)
  ∧ ∃ buf',
      guac_terminal_typescript_open_data_file 4 3
        four_typescripts "/tmp" "ts" basename16 16
      = Some (four_typescripts, buf', OpenFailed EEXIST).
Proof.
  assert (∀ j, 0 ≤ j ≤ 3 →
               candidate "/tmp" "ts" j ∈ existing four_typescripts) as Hex.
  { intros j Hj.
    assert (j = 0 ∨ j = 1 ∨ j = 2 ∨ j = 3) as [-> | [-> | [-> | ->]]] by lia;
      vm_compute; set_solver. }
  split; [exact Hex|].
  apply (guac_terminal_typescript_open_data_file_exhausted 4 3
           four_typescripts "/tmp" "ts" basename16 16);
    [reflexivity|lia|vm_compute; reflexivity|exact suffixes_fit_3
    |exact Hex|lia].
Defined.

Lemma guac_terminal_typescript_open_data_file_creates_witness :
  ("/tmp/ts.2" ∉ existing two_typescripts)
  ∧ ∃ fs' buf',
      guac_terminal_typescript_open_data_file 4 255
        two_typescripts "/tmp" "ts" basename16 16
      = Some (fs', buf', Opened "/tmp/ts.2")
      ∧ existing fs' = {["/tmp/ts.2"]} ∪ existing two_typescripts.
Proof.
  destruct (guac_terminal_typescript_open_data_file 4 255
              two_typescripts "/tmp" "ts" basename16 16)
    as [[[fs' buf'] r]|] eqn:Hopen; [|discriminate Hopen].
  assert (r = Opened "/tmp/ts.2") as Hr.
  { pose proof (f_equal (fmap snd) Hopen) as Hsnd.
    vm_compute in Hsnd. by injection Hsnd as <-. }
  subst r.
  destruct (guac_terminal_typescript_open_data_file_creates 4 255
              two_typescripts "/tmp" "ts" basename16 16 fs' buf'
              (Opened "/tmp/ts.2") Hopen) as (_ & Hnew & Hfs).
  split; [exact Hnew|]. exists fs', buf'. split; [reflexivity|exact Hfs].
Defined.

Lemma guac_terminal_typescript_open_data_file_length_check_witness :
  (∃ buf',
     guac_terminal_typescript_open_data_file 4 255
       two_typescripts "/tmp" "typescr" basename16 16
     = Some (two_typescripts, buf', OpenFailed ENAMETOOLONG))
  ∧ ∃ buf',
      guac_terminal_typescript_open_data_file 4 255
        two_typescripts "/tmp" "typescrip" basename16 16
      = Some ({| existing := {["/tmp/typesc"]} ∪ existing two_typescripts;
                 refused := refused two_typescripts |}, buf',
              Opened "/tmp/typesc").
Proof.
  split.
  - apply (guac_terminal_typescript_open_data_file_length_check 4 255
             two_typescripts "/tmp" "typescr" basename16 16);
      [reflexivity|lia|reflexivity].
  - apply (guac_terminal_typescript_open_data_file_length_check 4 255
             two_typescripts "/tmp" "typescrip" basename16 16);
      [reflexivity|lia|by vm_compute|by vm_compute
      |vm_compute; set_solver|reflexivity].
Defined.

End DataFileExamples.


(** ** Display updates *)

Section DispUpdates.

Import CInt RdpDisp.

Variables MIN MAX INTERVAL : Z.
Context {DispClientContext rdpContext : Type}.
Variables get_width get_height : rdpContext → Z.

Local Abbreviation update_size :=
  (guac_rdp_disp_update_size (DispClientContext := DispClientContext)
     INTERVAL get_width get_height).
Local Abbreviation set_size :=
  (guac_rdp_disp_set_size (DispClientContext := DispClientContext)
     MIN MAX INTERVAL get_width get_height).

Implicit Types (d : @guac_rdp_disp DispClientContext) (context : rdpContext).

Lemma to_int64_id z : LONG_MIN ≤ z ≤ LONG_MAX → to_int64 z = z.
Proof.
  unfold LONG_MIN, LONG_MAX, to_int64, wrap. intros Hz.
  change (2 ^ (64 - 1)) with 9223372036854775808.
  change (2 ^ 64) with 18446744073709551616.
  rewrite Z.mod_small; lia.
Qed.

(** The cases of [guac_rdp_disp_update_size]: nothing happens, or one
    layout of the requested size is sent and the time recorded. *)
Lemma guac_rdp_disp_update_size_cases d context now :
  let sends :=
    is_Some (disp d)
    ∧ (last_request d = 0
       ∨ INTERVAL < to_int64 (now - last_request d))
    ∧ (requested_width d ≠ get_width context
       ∨ requested_height d ≠ get_height context) in
  (sends ∧
   update_size d context now
   = ({| disp := disp d; last_request := now;
         requested_width := requested_width d;
         requested_height := requested_height d |},
      [primary_monitor (requested_width d) (requested_height d)]))
  ∨ (¬ sends ∧ update_size d context now = (d, [])).
Proof.
  intros sends. subst sends. unfold guac_rdp_disp_update_size.
  destruct (disp d) as [c|] eqn:Hdisp.
  - repeat case_decide.
    + right. split; [|done]. intros (_ & Hrate & _). lia.
    + right. split; [|done]. intros (_ & _ & Hsize). lia.
    + left. split; [|done]. split; [eauto|]. split; lia.
  - right. split; [|done]. intros ([c Hc] & _). done.
Qed.

(** A size within the bounds with an even width is stored as it is. *)
Lemma guac_rdp_disp_set_size_in_bounds d context width height now :
  MIN ≤ width ≤ MAX → MIN ≤ height ≤ MAX → Z.even width = true →
  requested_size (set_size d context width height now)
  = Some (width, height).
Proof.
  intros Hw Hh Heven. rewrite guac_rdp_disp_set_size_requested.
  unfold guac_rdp_disp_fit. repeat case_decide; try lia. simpl.
  repeat case_decide; try lia. simpl.
  apply Z.even_spec in Heven as [k ->].
  rewrite Z.mul_comm, Z.rem_mul by lia.
  case_decide; [done|]. done.
Qed.

(** What a call of [guac_rdp_disp_set_size] sends and records, from the
    module with the size stored. *)
Lemma guac_rdp_disp_set_size_update d context width height now d1 sent :
  set_size d context width height now = Some (d1, sent) →
  ∃ w h,
    requested_size (set_size d context width height now) = Some (w, h)
    ∧ (d1, sent)
      = update_size {| disp := disp d; last_request := last_request d;
                       requested_width := w; requested_height := h |}
          context now.
Proof.
  intros Hset. unfold requested_size. rewrite Hset. simpl.
  unfold guac_rdp_disp_set_size in Hset.
  destruct (guac_rdp_disp_fit MIN MAX width height) as [[w1 h1]|]; [|done].
  simpl in Hset.
  destruct (guac_rdp_disp_fit MIN MAX h1 w1) as [[h2 w2]|]; [|done].
  simpl in Hset. injection Hset as Hset.
  match type of Hset with
  | update_size ?d' _ _ = _ =>
      pose proof (guac_rdp_disp_update_size_requested INTERVAL
                    get_width get_height d' context now) as [Hw Hh];
      rewrite Hset in Hw, Hh; simpl in Hw, Hh
  end.
  eexists _, _. split; [reflexivity|]. by rewrite Hw, Hh, <- Hset.
Qed.

(** X9: A size whose products with the upper bound fit an [int] is stored
    within the bounds with an even width, and the stored size is a fixed
    point: requesting it again, in any state of the module, stores it
    again. *)
Theorem guac_rdp_disp_set_size_fixed_point d context width height now :
  1 ≤ MIN → MIN ≤ MAX → MAX * MAX ≤ INT_MAX → Z.even MIN = true →
  1 ≤ width → 1 ≤ height →
  width * MAX ≤ INT_MAX → height * MAX ≤ INT_MAX →
  ∃ w h,
    requested_size
      (guac_rdp_disp_set_size MIN MAX INTERVAL get_width get_height
         d context width height now) = Some (w, h)
    ∧ MIN ≤ w ≤ MAX ∧ MIN ≤ h ≤ MAX ∧ Z.even w = true
    ∧ ∀ d' context' now',
        requested_size
          (guac_rdp_disp_set_size MIN MAX INTERVAL get_width get_height
             d' context' w h now') = Some (w, h).
Proof.
  intros HMIN HMAX Hsq Heven Hw Hh Hwm Hhm.
  destruct (guac_rdp_disp_set_size_no_overflow MIN MAX INTERVAL
              get_width get_height HMIN HMAX Hsq d context width height now
              Heven Hw Hh Hwm Hhm) as (w & h & Hreq & Hwb & Hhb & Hev).
  exists w, h. repeat split; try done; try lia.
  intros d' context' now'. by apply guac_rdp_disp_set_size_in_bounds.
Qed.

(** X10: A call of [guac_rdp_disp_set_size] that returns never changes the
    channel, and either sends nothing and leaves the time of the last
    request, or sends exactly one layout: then the channel is connected,
    the layout is the primary monitor of the size just stored, that size
    differs from the size of the remote display, no request was made
    within the update interval, and the time of the request is recorded. *)
Theorem guac_rdp_disp_set_size_sends d context width height now d1 sent :
  guac_rdp_disp_set_size MIN MAX INTERVAL get_width get_height
    d context width height now = Some (d1, sent) →
  disp d1 = disp d
  ∧ ((sent = [] ∧ last_request d1 = last_request d)
     ∨ (sent = [primary_monitor (requested_width d1) (requested_height d1)]
        ∧ is_Some (disp d)
        ∧ last_request d1 = now
        ∧ (requested_width d1 ≠ get_width context
           ∨ requested_height d1 ≠ get_height context)
        ∧ (last_request d = 0
           ∨ INTERVAL < to_int64 (now - last_request d)))).
Proof.
  intros Hset.
  destruct (guac_rdp_disp_set_size_update _ _ _ _ _ _ _ Hset)
    as (w & h & _ & Hupd).
  match type of Hupd with
  | _ = update_size ?d' _ _ =>
      destruct (guac_rdp_disp_update_size_cases d' context now)
        as [[(Hc & Hrate & Hsize) Hsend]|[_ Hnone]]
  end.
  - rewrite Hsend in Hupd. injection Hupd as -> ->. simpl in *.
    split; [done|]. right. done.
  - rewrite Hnone in Hupd. injection Hupd as -> ->. simpl.
    split; [done|]. left. done.
Qed.

(** X11: A size requested before the channel is connected is deferred: the
    call sends nothing, and once the channel is connected the first
    update sends the stored size as the one primary monitor, unless the
    remote display has that size already, in which case nothing is sent. *)
Theorem guac_rdp_disp_deferred_size
    d context width height now d1 sent c context' now' :
  disp d = None →
  last_request d = 0 →
  guac_rdp_disp_set_size MIN MAX INTERVAL get_width get_height
    d context width height now = Some (d1, sent) →
  sent = []
  ∧ guac_rdp_disp_update_size INTERVAL get_width get_height
      (guac_rdp_disp_connect d1 c) context' now'
    = (if decide (requested_width d1 = get_width context'
                  ∧ requested_height d1 = get_height context')
       then (guac_rdp_disp_connect d1 c, [])
       else ({| disp := Some c; last_request := now';
                requested_width := requested_width d1;
                requested_height := requested_height d1 |},
             [primary_monitor (requested_width d1) (requested_height d1)])).
Proof.
  intros Hdisp Hlast Hset.
  destruct (guac_rdp_disp_set_size_update _ _ _ _ _ _ _ Hset)
    as (w & h & _ & Hupd).
  unfold guac_rdp_disp_update_size in Hupd. simpl in Hupd.
  rewrite Hdisp in Hupd. injection Hupd as -> ->. split; [done|].
  unfold guac_rdp_disp_update_size, guac_rdp_disp_connect. simpl.
  rewrite Hlast. repeat case_decide; try done; lia.
Qed.

(** X12: Requests are limited in frequency.  After a call that sent a layout
    at a time other than 0, a size requested within the update interval
    is stored and not sent, and an update within the interval sends
    nothing and changes nothing. *)
Theorem guac_rdp_disp_rate_limit
    d context width height now d1 m context' width' height' now' d2 sent :
  guac_rdp_disp_set_size MIN MAX INTERVAL get_width get_height
    d context width height now = Some (d1, [m]) →
  now ≠ 0 →
  0 ≤ now' - now ≤ INTERVAL → INTERVAL ≤ LONG_MAX →
  guac_rdp_disp_update_size INTERVAL get_width get_height d1 context' now'
  = (d1, [])
  ∧ (guac_rdp_disp_set_size MIN MAX INTERVAL get_width get_height
       d1 context' width' height' now' = Some (d2, sent) →
     sent = [] ∧ last_request d2 = now ∧ disp d2 = disp d1).
Proof.
  intros Hset Hnow Hdiff Hint.
  assert (last_request d1 = now ∧ is_Some (disp d1)) as [Hlast Hdisp].
  { destruct (guac_rdp_disp_set_size_update _ _ _ _ _ _ _ Hset)
      as (w & h & _ & Hupd).
    match type of Hupd with
    | _ = update_size ?d' _ _ =>
        destruct (guac_rdp_disp_update_size_cases d' context now)
          as [[(Hc & _) Hsend]|[_ Hnone]]
    end.
    - rewrite Hsend in Hupd. by injection Hupd as -> _.
    - rewrite Hnone in Hupd. congruence. }
  assert (to_int64 (now' - now) ≤ INTERVAL) as Hrate.
  { rewrite to_int64_id; [lia|]. unfold LONG_MIN. lia. }
  split.
  - unfold guac_rdp_disp_update_size. destruct (disp d1); [|done].
    rewrite Hlast. case_decide; [done|lia].
  - intros Hset2.
    destruct (guac_rdp_disp_set_size_update _ _ _ _ _ _ _ Hset2)
      as (w & h & Hreq & Hupd).
    unfold guac_rdp_disp_update_size in Hupd. simpl in Hupd.
    destruct (disp d1); [|by destruct Hdisp].
    rewrite Hlast in Hupd. case_decide; [|lia].
    by injection Hupd as -> ->.
Qed.

End DispUpdates.


Section DispUpdatesExamples.

Import CInt RdpDisp Examples.

Lemma guac_rdp_disp_set_size_fixed_point_witness :
  ∃ w h,
    requested_size (set_size_at disp_unconnected 100 50 0) = Some (w, h)
    ∧ 200 ≤ w ≤ 8192 ∧ 200 ≤ h ≤ 8192 ∧ Z.even w = true
    ∧ ∀ d' (context' : unit) now',
        requested_size (set_size_at d' w h now') = Some (w, h).
Proof.
  apply (guac_rdp_disp_set_size_fixed_point 200 8192 500 (λ _ : unit, 1024)
           (λ _, 768) disp_unconnected () 100 50 0);
    unfold INT_MAX; (reflexivity || lia).
Defined.

(** The size 100 by 50 is stored as 400 by 200. *)
Example set_size_100_50 :
  requested_size (set_size_at disp_unconnected 100 50 0) = Some (400, 200).
Proof. reflexivity. Qed.

Lemma guac_rdp_disp_set_size_sends_witness :
  set_size_at disp_connected 1025 769 1000
  = Some ({| disp := Some (); last_request := 1000;
             requested_width := 1024; requested_height := 769 |},
          [primary_monitor 1024 769])
  ∧ (1024 ≠ 1024 ∨ 769 ≠ 768)
  ∧ (last_request disp_connected = 0
     ∨ 500 < to_int64 (1000 - last_request disp_connected)).
Proof.
  assert (set_size_at disp_connected 1025 769 1000
          = Some ({| disp := Some (); last_request := 1000;
                     requested_width := 1024; requested_height := 769 |},
                  [primary_monitor 1024 769])) as Hset by reflexivity.
  split; [exact Hset|].
  destruct (guac_rdp_disp_set_size_sends 200 8192 500 (λ _ : unit, 1024)
              (λ _, 768) disp_connected () 1025 769 1000 _ _ Hset)
    as (_ & [[Hnil _]|(_ & _ & _ & Hsize & Hrate)]);
    [discriminate Hnil|].
  split; [exact Hsize|exact Hrate].
Defined.

Lemma guac_rdp_disp_deferred_size_witness :
  set_size_at disp_unconnected 1025 769 1000
  = Some ({| disp := None; last_request := 0;
             requested_width := 1024; requested_height := 769 |}, [])
  ∧ update_size_at
      (guac_rdp_disp_connect
         {| disp := None; last_request := 0;
            requested_width := 1024; requested_height := 769 |} ()) 2000
    = ({| disp := Some (); last_request := 2000;
          requested_width := 1024; requested_height := 769 |},
       [primary_monitor 1024 769]).
Proof.
  assert (set_size_at disp_unconnected 1025 769 1000
          = Some ({| disp := None; last_request := 0;
                     requested_width := 1024; requested_height := 769 |}, []))
    as Hset by reflexivity.
  split; [exact Hset|].
  destruct (guac_rdp_disp_deferred_size 200 8192 500 (λ _ : unit, 1024)
              (λ _, 768) disp_unconnected () 1025 769 1000 _ _ () () 2000
              eq_refl eq_refl Hset) as [_ Hupd].
  exact Hupd.
Defined.

Lemma guac_rdp_disp_rate_limit_witness :
  let d1 := {| disp := Some (); last_request := 1000;
               requested_width := 1024; requested_height := 769 |} in
  set_size_at disp_connected 1025 769 1000
  = Some (d1, [primary_monitor 1024 769])
  ∧ update_size_at d1 1500 = (d1, [])
  ∧ set_size_at d1 800 600 1500
    = Some ({| disp := Some (); last_request := 1000;
               requested_width := 800; requested_height := 600 |}, []).
Proof.
  intros d1.
  assert (set_size_at disp_connected 1025 769 1000
          = Some (d1, [primary_monitor 1024 769])) as Hset by reflexivity.
  assert (set_size_at d1 800 600 1500
          = Some ({| disp := Some (); last_request := 1000;
                     requested_width := 800; requested_height := 600 |}, []))
    as Hset2 by reflexivity.
  split; [exact Hset|].
  destruct (guac_rdp_disp_rate_limit 200 8192 500 (λ _ : unit, 1024)
              (λ _, 768) disp_connected () 1025 769 1000 d1 _ () 800 600
              1500 d1 [] Hset) as [Hupd _];
    [lia|lia|unfold LONG_MAX; lia|].
  split; [exact Hupd|exact Hset2].
Defined.

End DispUpdatesExamples.


Section AllocOpenExamples.

Import CInt CString Typescript Examples.

Lemma guac_terminal_typescript_alloc_once_witness :
  ∃ fs1 fs2 opened,
    guac_terminal_typescript_alloc_open 4 255
      two_typescripts "/tmp" "ts" false (λ _, None) basename16 16
    = Some (fs1, Some "/tmp/ts.2", Some "/tmp/typescript-timing")
    ∧ guac_terminal_typescript_alloc_open_all 4 255 fs1 16 later_calls
      = Some (fs2, opened)
    ∧ ("/tmp/typescript-timing" ∈ existing fs2)
    ∧ Datatypes.length opened = 2%nat
    ∧ Forall (λ o, o.2 = None) opened.
Proof.
  destruct (guac_terminal_typescript_alloc_open 4 255
              two_typescripts "/tmp" "ts" false (λ _, None) basename16 16)
    as [[[fs1 data] timing]|] eqn:Hfirst; [|discriminate Hfirst].
  assert (data = Some "/tmp/ts.2" ∧ timing = Some "/tmp/typescript-timing")
    as [-> ->].
  { pose proof (f_equal (fmap (λ r, (r.1.2, r.2))) Hfirst) as Hsnd.
    vm_compute in Hsnd. by injection Hsnd as <- <-. }
  destruct (guac_terminal_typescript_alloc_open_all 4 255 fs1 16
              later_calls) as [[fs2 opened]|] eqn:Hlater.
  - destruct (guac_terminal_typescript_alloc_once 4 255 _ _ _ _ _ _ _ _ _ _
                _ _ _ Hfirst Hlater) as (Hin & Hlen & Hall).
    exists fs1, fs2, opened. split; [reflexivity|]. split; [exact Hlater|].
    split; [exact Hin|]. split; [exact Hlen|].
    apply (Forall_impl _ _ _ Hall). intros o [Hnone _]. exact Hnone.
  - exfalso. unfold guac_terminal_typescript_alloc_open in Hfirst.
    simpl andb in Hfirst. cbv iota in Hfirst.
    vm_compute in Hfirst. injection Hfirst as <-.
    vm_compute in Hlater. discriminate Hlater.
Defined.

Lemma guac_terminal_typescript_alloc_leaves_data_file_witness :
  ∃ fs',
    guac_terminal_typescript_alloc_open 4 255
      timing_taken "/tmp/d" "ts" true (λ _, None) basename16 16
    = Some (fs', Some "/tmp/d/ts", None)
    ∧ existing (mkdir timing_taken "/tmp/d" (λ _, None)).1
      = {["/tmp/d"]} ∪ existing timing_taken
    ∧ ("/tmp/d/ts" ∉ existing (mkdir timing_taken "/tmp/d" (λ _, None)).1)
    ∧ existing fs'
      = {["/tmp/d/ts"]}
        ∪ existing (mkdir timing_taken "/tmp/d" (λ _, None)).1.
Proof.
  destruct (guac_terminal_typescript_alloc_open 4 255
              timing_taken "/tmp/d" "ts" true (λ _, None) basename16 16)
    as [[[fs' data] timing]|] eqn:Hopen; [|discriminate Hopen].
  assert (data = Some "/tmp/d/ts" ∧ timing = None) as [-> ->].
  { pose proof (f_equal (fmap (λ r, (r.1.2, r.2))) Hopen) as Hsnd.
    vm_compute in Hsnd. by injection Hsnd as <- <-. }
  destruct (guac_terminal_typescript_alloc_leaves_data_file 4 255
              _ _ _ _ _ _ _ _ _ Hopen) as (Hnew & Hfs & _ & _).
  exists fs'. split; [reflexivity|]. split; [reflexivity|].
  split; [exact Hnew|exact Hfs].
Defined.

End AllocOpenExamples.
